(** * InsightFlow: the React client and the per-company retrieval contract

    The development embeds the client-side code of the repository
    (services/api.js, components/ResearchForm.jsx, components/Visualization.jsx,
    components/ChatInterface.jsx and App.jsx) as a transition system, and
    states the properties of the specification against it.  The back end is
    not part of the sources; the one property that is purely about it is
    stated over a model written from the specification. *)

From Stdlib Require Import ZArith NArith Ascii String DecimalString Lia.
From stdpp Require Import base option list gmap.

Open Scope list_scope.

(** ** JavaScript data *)

(** A JavaScript string is a sequence of UTF-16 code units. *)
Abbreviation js_string := (list N).

(** An ASCII literal of the source, as code units. *)
Definition lit (s : string) : js_string :=
  map N_of_ascii (list_ascii_of_string s).
Arguments lit s%_string.

(** ECMAScript WhiteSpace and LineTerminator code points, the characters
    removed by [String.prototype.trim]; all of them are single code units. *)
Definition is_white_space (c : N) : bool :=
  ((c =? 9) || (c =? 10) || (c =? 11) || (c =? 12) || (c =? 13) || (c =? 32)
   || (c =? 160) || (c =? 5760) || ((8192 <=? c) && (c <=? 8202))
   || (c =? 8232) || (c =? 8233) || (c =? 8239) || (c =? 8287)
   || (c =? 12288) || (c =? 65279))%N.

Fixpoint trimStart (s : js_string) : js_string :=
  match s with
  | [] => []
  | c :: r => if is_white_space c then trimStart r else s
  end.

Definition trimEnd (s : js_string) : js_string := reverse (trimStart (reverse s)).

(** [s.trim()] *)
Definition trim (s : js_string) : js_string := trimEnd (trimStart s).

(** [s.charAt(0)]: the first code unit, or the empty string. *)
Definition charAt0 (s : js_string) : js_string := take 1 s.

(** [s.slice(1)] *)
Definition slice1 (s : js_string) : js_string := drop 1 s.

(** Values that reach the components: results of JSON parsing, plus
    [undefined].  Numbers are the integer-valued ones (counts); the
    components never compute with them.  [JObj props] lists the own
    enumerable properties in the engine's enumeration order, with distinct
    keys. *)
#[warnings="-register-all"]
Inductive JsVal :=
| JUndefined
| JNull
| JBool (b : bool)
| JNum (n : Z)
| JStr (s : js_string)
| JArr (items : list JsVal)
| JObj (props : list (js_string * JsVal)).

(** ToBoolean *)
Definition truthy (v : JsVal) : bool :=
  match v with
  | JUndefined | JNull => false
  | JBool b => b
  | JNum n => negb (n =? 0)%Z
  | JStr s => match s with [] => false | _ => true end
  | JArr _ | JObj _ => true
  end.

(** [a || b] *)
Definition js_or (a b : JsVal) : JsVal := if truthy a then a else b.

Fixpoint assoc (k : js_string) (props : list (js_string * JsVal)) : option JsVal :=
  match props with
  | [] => None
  | (k', v) :: r => if decide (k' = k) then Some v else assoc k r
  end.

(** [v.k] for a key [k] that no built-in prototype defines (every key the
    program reads is of that kind, and none is an index or [length]):
    [None] is the TypeError raised on [undefined] and [null]. *)
Definition get (v : JsVal) (k : js_string) : option JsVal :=
  match v with
  | JUndefined | JNull => None
  | JObj props => Some (default JUndefined (assoc k props))
  | _ => Some JUndefined
  end.

(** [v?.k] *)
Definition get_opt (v : JsVal) (k : js_string) : JsVal :=
  default JUndefined (get v k).

(** What React accepts as a child: [undefined], [null] and booleans render
    nothing, numbers and strings render as text, arrays render their items;
    a plain object makes React throw ('Objects are not valid as a React
    child'), and with no error boundary in the tree the page is unmounted. *)
Fixpoint renderable (v : JsVal) : bool :=
  match v with
  | JObj _ => false
  | JArr items => forallb renderable items
  | _ => true
  end.

(** Decimal spelling of an array index. *)
Definition index_key (i : nat) : js_string :=
  lit (NilEmpty.string_of_uint (Nat.to_uint i)).

(** [Object.entries(v)]; [None] is the TypeError on [undefined] and [null]. *)
Definition Object_entries (v : JsVal) : option (list (js_string * JsVal)) :=
  match v with
  | JUndefined | JNull => None
  | JObj props => Some props
  | JArr items => Some (imap (fun i x => (index_key i, x)) items)
  | JStr s => Some (imap (fun i c => (index_key i, JStr [c])) s)
  | JBool _ | JNum _ => Some []
  end.

(** ** services/api.js *)

Inductive Method := GET | POST | DELETE.

(** An axios request relative to the instance's [baseURL]; [body] is
    [JUndefined] when the call passes none. *)
Record Request := mkRequest { method : Method; url : js_string; body : JsVal }.

Record Response := mkResponse { status : Z; data : JsVal }.

(** The error axios rejects with: [response] is present when the server
    answered with a status outside 2xx, absent on a network failure. *)
Record AxiosError := mkAxiosError { err_response : option Response }.

Inductive Settled :=
| Fulfilled (r : Response)
| Rejected (e : AxiosError).

(** axios' default [validateStatus]. *)
Definition axios_settle (r : Response) : Settled :=
  if ((200 <=? status r) && (status r <? 300))%Z then Fulfilled r
  else Rejected (mkAxiosError (Some r)).

(** Every function of api.js awaits one axios call and returns a function
    of its response; a rejection of the call rejects the function. *)
Record ApiCall := mkApiCall {
  call_request : Request;
  call_result : Response -> JsVal
}.

Module api.

Definition post (u : js_string) (b : JsVal) : Request := mkRequest POST u b.
Definition get_ (u : js_string) : Request := mkRequest GET u JUndefined.
Definition delete_ (u : js_string) : Request := mkRequest DELETE u JUndefined.

Definition researchCompany (companyName : js_string) : ApiCall :=
  mkApiCall
    (post (lit "/research/") (JObj [(lit "company_name", JStr companyName)]))
    (fun response => data response).

Definition sendChatMessage (companyName prompt : js_string) : ApiCall :=
  mkApiCall
    (post (lit "/chat/")
          (JObj [(lit "company_name", JStr companyName);
                 (lit "prompt", JStr prompt)]))
    (fun response => data response).

Definition getCompanies : ApiCall :=
  mkApiCall (get_ (lit "/companies/")) (fun response => data response).

Definition resetCompany (companyName : js_string) : ApiCall :=
  mkApiCall (delete_ (lit "/reset/" ++ companyName)) (fun response => data response).

Definition healthCheck : ApiCall :=
  mkApiCall (get_ (lit "/health")) (fun response => data response).

End api.


(** ** components/ResearchForm.jsx *)

Module ResearchForm.

Record state := mkState {
  companyName : js_string;
  loading : bool;
  error : JsVal;
  progress : js_string
}.

(** The four [useState] initial values. *)
Definition init : state := mkState [] false (JStr []) [].

Definition simulateProgress : list js_string :=
  [ lit "Searching for company data...";
    lit "Planning data collection strategy...";
    lit "Fetching from multiple sources...";
    lit "Cleaning and processing data...";
    lit "Storing in vector database...";
    lit "Generating insights and summary..." ].

(** [handleSubmit] up to the [await]: [None] is the early return; otherwise
    the new state and the call that was started.  The interval is created
    with [currentStep = 0] by the caller. *)
Definition handleSubmit (st : state) : option (state * ApiCall) :=
  match trim (companyName st) with
  | [] => None
  | _ =>
      Some (mkState (companyName st) true (JStr []) (lit "Initializing AI agents..."),
            api.researchCompany (companyName st))
  end.

(** The interval callback: the string to show, if any, and the new value
    of the closure's [currentStep]. *)
Definition interval_callback (currentStep : nat) : option js_string * nat :=
  match simulateProgress !! currentStep with
  | Some s => (Some s, S currentStep)
  | None => (None, currentStep)
  end.

Definition setProgress (p : js_string) (st : state) : state :=
  mkState (companyName st) (loading st) (error st) p.

(** After the [await] returned: [setProgress('Research complete!')], then
    the [finally] block.  (The interval is cleared and the 500 ms timeout is
    registered by the caller.) *)
Definition on_fulfilled (st : state) : state :=
  mkState (companyName st) false (error st) (lit "Research complete!").

(** [err.response?.data?.error || 'Failed to research company. Please try again.'] *)
Definition error_message (err : AxiosError) : JsVal :=
  js_or (match err_response err with
         | None => JUndefined
         | Some r => get_opt (data r) (lit "error")
         end)
        (JStr (lit "Failed to research company. Please try again.")).

(** The [catch] block followed by the [finally] block.  The message is
    truthy, so the next render has it as the child of the error box,
    [{error && (<div ...>{error}</div>)}]: [None] is React throwing on a
    message that is not [renderable]. *)
Definition on_rejected (err : AxiosError) (st : state) : option state :=
  if renderable (error_message err)
  then Some (mkState (companyName st) false (error_message err) [])
  else None.

(** What the progress panel shows: [loading && progress && ... {progress}]. *)
Definition displayed_progress (st : state) : option js_string :=
  if loading st then
    match progress st with [] => None | p => Some p end
  else None.

End ResearchForm.

(** ** components/Visualization.jsx *)

Module Visualization.

Record element := mkElement {
  el_company : js_string;
  el_summary : JsVal;
  el_chartData : list (js_string * JsVal);
  el_total_sources : JsVal;
  el_stats : list (js_string * JsVal)
}.

Inductive rendered :=
| RenderNull
| RenderElement (e : element).

Section WithCaseMapping.

(** [String.prototype.toUpperCase], a built-in that is not part of the
    sources. *)
Variable toUpperCase : js_string -> js_string.

Definition capitalize (name : js_string) : js_string :=
  toUpperCase (charAt0 name) ++ slice1 name.

(** The component function; [None] would be an exception raised while
    rendering. *)
Definition Visualization (data : JsVal) (company : js_string) : option rendered :=
  if negb (truthy data) then Some RenderNull
  else
    summary ← get data (lit "summary");
    sources_breakdown ← get data (lit "sources_breakdown");
    total_sources ← get data (lit "total_sources");
    entries ← Object_entries (js_or sources_breakdown (JObj []));
    let chartData := map (fun '(name, value) => (capitalize name, value)) entries in
    entries' ← Object_entries (js_or sources_breakdown (JObj []));
    Some (RenderElement (mkElement company summary chartData total_sources entries')).

End WithCaseMapping.

(** The JavaScript values the element has as children: [{summary}],
    [{total_sources}] and the [{count}] of every row of the list (the
    company and the source names are strings). *)
Definition children_renderable (e : element) : bool :=
  renderable (el_summary e) && renderable (el_total_sources e)
  && forallb (fun '(_, count) => renderable count) (el_stats e).

(** Rendering the component with [data] does not throw.  The case mapping
    only reaches the chart names, which are strings whatever it is. *)
Definition renders (data : JsVal) : bool :=
  match Visualization (fun name => name) data [] with
  | Some RenderNull => true
  | Some (RenderElement e) => children_renderable e
  | None => false
  end.

End Visualization.

(** ** components/ChatInterface.jsx *)

Module ChatInterface.

Inductive Role := user | assistant.

Record Message := mkMessage { role : Role; content : JsVal }.

Record state := mkState {
  messages : list Message;
  input : js_string;
  loading : bool
}.

Definition greeting (company : js_string) : Message :=
  mkMessage assistant
    (JStr (lit "Hi! I've analyzed all the research data for " ++ company
           ++ lit ". Ask me anything about the company!")).

(** The [useState] initial values at mount, for the [company] prop of
    that first render. *)
Definition init (company : js_string) : state :=
  mkState [greeting company] [] false.

Definition apology : Message :=
  mkMessage assistant
    (JStr (lit "Sorry, I encountered an error processing your request. Please try again.")).

Definition suggestions : list js_string :=
  [ lit "What are the key products?";
    lit "Recent news and updates?";
    lit "Market sentiment?";
    lit "What makes them unique?" ].

(** [handleSubmit] up to the [await]: [None] is the early return. *)
Definition handleSubmit (company : js_string) (st : state) : option (state * ApiCall) :=
  match trim (input st) with
  | [] => None
  | userMessage =>
      if loading st then None
      else
        Some (mkState (messages st ++ [mkMessage user (JStr userMessage)]) [] true,
              api.sendChatMessage company userMessage)
  end.

(** After the [await] returned.  The updater passed to [setMessages] reads
    [response.response] when React applies it, that is while rendering and
    outside the [try] block: on a [null] body the TypeError is not caught
    and the tree is torn down, which is the [None] here.  The new message
    is then rendered, [{message.content}]: a content that is not
    [renderable] tears the tree down as well. *)
Definition on_fulfilled (response : JsVal) (st : state) : option state :=
  text ← get response (lit "response");
  if renderable text
  then Some (mkState (messages st ++ [mkMessage assistant text]) (input st) false)
  else None.

(** The [catch] block followed by the [finally] block. *)
Definition on_rejected (err : AxiosError) (st : state) : state :=
  mkState (messages st ++ [apology]) (input st) false.

End ChatInterface.

(** ** App.jsx *)

Module App.

Inductive Step := research | chat.

Record state := mkState {
  step : Step;
  currentCompany : js_string;
  vizData : JsVal
}.

Definition init : state := mkState research [] JNull.

Definition handleResearchComplete (company : js_string) (data : JsVal) (st : state) : state :=
  mkState chat company data.

Definition handleStartNew (st : state) : state := mkState research [] JNull.

(** The props of the [Visualization] element the chat branch renders:
    [{vizData && <Visualization data={vizData} company={currentCompany} />}]. *)
Definition visualization_props (st : state) : option (JsVal * js_string) :=
  match step st with
  | research => None
  | chat => if truthy (vizData st) then Some (vizData st, currentCompany st) else None
  end.

(** Rendering the chat branch with this state does not throw: the only
    JavaScript values it puts on screen are those of [Visualization]. *)
Definition renders (st : state) : bool :=
  match visualization_props st with
  | Some (data, _) => Visualization.renders data
  | None => true
  end.
Arguments renders : simpl never.

End App.

(** ** The running page

    The three stateful components, the calls in flight and the timers, driven
    by user and environment events.  Each event handler and each resumption
    of an [async] handler runs to completion before the next event. *)

(** A call in flight, with what its awaiting handler closed over: the
    component instance whose state setters it holds, and for a research
    submission the [companyName] of that render. *)
Inductive Pending :=
| PendingResearch (owner : nat) (companyName : js_string) (result : Response -> JsVal)
| PendingChat (owner : nat) (result : Response -> JsVal).

(** The child of [<main>]: the two branches render different component
    types, so switching branch unmounts one and mounts the other afresh. *)
Inductive View :=
| ResearchView (f : ResearchForm.state)
| ChatView (c : ChatInterface.state).

(** What crosses the network, newest first. *)
Inductive Obs :=
| Sent (id : nat) (req : Request)
| Settle (id : nat) (s : Settled).

Record World := mkWorld {
  app : App.state;
  inst : nat;                          (* identity of the mounted instance *)
  view : View;
  next_id : nat;
  pending : gmap nat Pending;
  intervals : gmap nat (nat * nat);    (* owner and [currentStep] of each live interval *)
  timeouts : gmap nat (js_string * JsVal);  (* [companyName] and [response] of each pending timeout *)
  log : list Obs
}.

Definition init : World :=
  mkWorld App.init 0 (ResearchView ResearchForm.init) 0 ∅ ∅ ∅ [].

Inductive Event :=
| ChangeCompanyName (s : js_string)
| SubmitResearch
| IntervalTick (id : nat)
| TimeoutFire (id : nat)
| HttpReply (id : nat) (r : Response)
| NetworkError (id : nat)
| ChangeInput (s : js_string)
| ClickSuggestion (i : nat)
| SubmitChat
| StartNew.

Definition set_view (v : View) (w : World) : World :=
  mkWorld (app w) (inst w) v (next_id w) (pending w) (intervals w) (timeouts w) (log w).

(** A state update of [App], followed by React's reconciliation of the
    branch. *)
Definition set_app (a : App.state) (w : World) : World :=
  match App.step a, view w with
  | App.research, ChatView _ =>
      mkWorld a (S (inst w)) (ResearchView ResearchForm.init)
              (next_id w) (pending w) (intervals w) (timeouts w) (log w)
  | App.chat, ResearchView _ =>
      mkWorld a (S (inst w)) (ChatView (ChatInterface.init (App.currentCompany a)))
              (next_id w) (pending w) (intervals w) (timeouts w) (log w)
  | _, _ =>
      mkWorld a (inst w) (view w) (next_id w) (pending w) (intervals w) (timeouts w) (log w)
  end.

(** State setters held by a closure of instance [owner]: they act only
    while that instance is mounted, and only then is anything rendered. *)
Definition with_form (owner : nat) (f : ResearchForm.state -> ResearchForm.state)
    (w : World) : World :=
  match view w with
  | ResearchView st => if decide (inst w = owner) then set_view (ResearchView (f st)) w else w
  | ChatView _ => w
  end.

Definition with_form_opt (owner : nat)
    (f : ResearchForm.state -> option ResearchForm.state) (w : World) : option World :=
  match view w with
  | ResearchView st =>
      if decide (inst w = owner) then st' ← f st; Some (set_view (ResearchView st') w)
      else Some w
  | ChatView _ => Some w
  end.

Definition with_chat (owner : nat) (f : ChatInterface.state -> option ChatInterface.state)
    (w : World) : option World :=
  match view w with
  | ChatView st =>
      if decide (inst w = owner) then st' ← f st; Some (set_view (ChatView st') w)
      else Some w
  | ResearchView _ => Some w
  end.

(** The promise of call [id] settles and its handler resumes. *)
Definition settle (id : nat) (s : Settled) (w : World) : option World :=
  match pending w !! id with
  | None => Some w
  | Some p =>
      let w1 := mkWorld (app w) (inst w) (view w) (next_id w) (delete id (pending w))
                        (intervals w) (timeouts w) (Settle id s :: log w) in
      match p, s with
      | PendingResearch owner companyName result, Fulfilled r =>
          Some (with_form owner ResearchForm.on_fulfilled
                  (mkWorld (app w1) (inst w1) (view w1) (next_id w1) (pending w1)
                           (delete id (intervals w1))
                           (<[id := (companyName, result r)]> (timeouts w1))
                           (log w1)))
      | PendingResearch owner _ _, Rejected e =>
          with_form_opt owner (ResearchForm.on_rejected e) w1
      | PendingChat owner result, Fulfilled r =>
          with_chat owner (ChatInterface.on_fulfilled (result r)) w1
      | PendingChat owner _, Rejected e =>
          with_chat owner (fun st => Some (ChatInterface.on_rejected e st)) w1
      end
  end.

(** One event; [None] is an exception raised while rendering, after which
    the page is gone.  Every handler checks the values it newly puts on
    screen; what was on screen before has been rendered already.  An event
    that the page cannot produce in its current state changes nothing. *)
Definition dispatch (w : World) (ev : Event) : option World :=
  match ev with
  | ChangeCompanyName s =>
      match view w with
      | ResearchView st =>
          if ResearchForm.loading st then Some w
          else Some (set_view (ResearchView
                 (ResearchForm.mkState s (ResearchForm.loading st)
                    (ResearchForm.error st) (ResearchForm.progress st))) w)
      | ChatView _ => Some w
      end
  | SubmitResearch =>
      match view w with
      | ResearchView st =>
          match ResearchForm.handleSubmit st with
          | None => Some w
          | Some (st', call) =>
              let id := next_id w in
              Some (mkWorld (app w) (inst w) (ResearchView st') (S id)
                      (<[id := PendingResearch (inst w) (ResearchForm.companyName st)
                                               (call_result call)]> (pending w))
                      (<[id := (inst w, 0)]> (intervals w))
                      (timeouts w)
                      (Sent id (call_request call) :: log w))
          end
      | ChatView _ => Some w
      end
  | IntervalTick id =>
      match intervals w !! id with
      | None => Some w
      | Some (owner, currentStep) =>
          let '(shown, currentStep') := ResearchForm.interval_callback currentStep in
          let w1 := mkWorld (app w) (inst w) (view w) (next_id w) (pending w)
                            (<[id := (owner, currentStep')]> (intervals w))
                            (timeouts w) (log w) in
          Some (match shown with
                | Some s => with_form owner (ResearchForm.setProgress s) w1
                | None => w1
                end)
      end
  | TimeoutFire id =>
      match timeouts w !! id with
      | None => Some w
      | Some (companyName, response) =>
          let w1 := mkWorld (app w) (inst w) (view w) (next_id w) (pending w)
                            (intervals w) (delete id (timeouts w)) (log w) in
          (* [onResearchComplete(companyName, response.viz_data)]: reading
             the property of a [null] response throws inside the timer
             callback, before the call *)
          match get response (lit "viz_data") with
          | None => Some w1
          | Some viz_data =>
              (* the chat branch is rendered with the new state *)
              if App.renders (App.handleResearchComplete companyName viz_data (app w1))
              then Some (set_app (App.handleResearchComplete companyName viz_data (app w1)) w1)
              else None
          end
      end
  | HttpReply id r => settle id (axios_settle r) w
  | NetworkError id => settle id (Rejected (mkAxiosError None)) w
  | ChangeInput s =>
      match view w with
      | ChatView st =>
          if ChatInterface.loading st then Some w
          else Some (set_view (ChatView
                 (ChatInterface.mkState (ChatInterface.messages st) s
                    (ChatInterface.loading st))) w)
      | ResearchView _ => Some w
      end
  | ClickSuggestion i =>
      match view w with
      | ChatView st =>
          if decide (length (ChatInterface.messages st) ≤ 1) then
            match ChatInterface.suggestions !! i with
            | Some question =>
                Some (set_view (ChatView
                  (ChatInterface.mkState (ChatInterface.messages st) question
                     (ChatInterface.loading st))) w)
            | None => Some w
            end
          else Some w
      | ResearchView _ => Some w
      end
  | SubmitChat =>
      match view w with
      | ChatView st =>
          match ChatInterface.handleSubmit (App.currentCompany (app w)) st with
          | None => Some w
          | Some (st', call) =>
              let id := next_id w in
              Some (mkWorld (app w) (inst w) (ChatView st') (S id)
                      (<[id := PendingChat (inst w) (call_result call)]> (pending w))
                      (intervals w) (timeouts w)
                      (Sent id (call_request call) :: log w))
          end
      | ResearchView _ => Some w
      end
  | StartNew =>
      (* the button is rendered under [currentCompany && ...] *)
      match App.currentCompany (app w) with
      | [] => Some w
      | _ => Some (set_app (App.handleStartNew (app w)) w)
      end
  end.

Fixpoint run (evs : list Event) (w : World) : option World :=
  match evs with
  | [] => Some w
  | ev :: rest => w' ← dispatch w ev; run rest w'
  end.

Definition reachable (w : World) : Prop := ∃ evs, run evs init = Some w.

(** The progress string on screen. *)
Definition progress_on_screen (w : World) : option js_string :=
  match view w with
  | ResearchView st => ResearchForm.displayed_progress st
  | ChatView _ => None
  end.

Definition chat_messages (w : World) : list ChatInterface.Message :=
  match view w with
  | ChatView st => ChatInterface.messages st
  | ResearchView _ => []
  end.

(** ** The back end, from the specification *)

Module Backend.

Inductive SourceType := web | news | forum | code_host.

Inductive ChatError := NotFoundError | DependencyError.

(** Modelled from the spec: the output of the cleaning stage (section 4.2),
    a Document that has no embedding and no owner yet.  The back end
    (agents.py, services/) is not among the sources. *)
Record CleanDocument := mkClean {
  clean_id : js_string;               (* dedup-key *)
  clean_source : SourceType;
  clean_text : js_string;
  clean_title : option js_string;
  clean_url : option js_string;
  clean_fetched : Z
}.

Section WithProviders.

Context {Vec : Type}.

(** Modelled from the spec: the collaborators of section 6.  [embed] and
    [complete] answer [None] when the provider is unreachable; [similarity]
    is the score of the vector store's search, larger meaning nearer;
    [top_k] is the fixed k; [fallback] is the fixed answer on an empty
    collection. *)
Variable embed : js_string -> option Vec.
Variable similarity : Vec -> Vec -> Z.
Variable top_k : nat.
Variable complete : js_string -> option js_string.
Variable fallback : js_string.

(** Modelled from the spec: the Document of section 3. *)
Record Document := mkDocument {
  doc_id : js_string;
  company_id : js_string;
  source_type : SourceType;
  text : js_string;
  title : option js_string;
  doc_url : option js_string;
  fetch_timestamp : Z;
  embedding : Vec
}.

(** Modelled from the spec: one vector collection per company, keyed by
    [company_id], the documents of a collection keyed by dedup-key. *)
Abbreviation VectorStore := (gmap js_string (gmap js_string Document)).

(** Modelled from the spec: the store effect of [index(company_id, docs)]
    (section 4.3): an upsert by dedup-key into the company's collection; a
    document whose embedding call fails is left out.  The counts of
    [IndexResult] are not modelled. *)
Definition stamp (company : js_string) (d : CleanDocument) (v : Vec) : Document :=
  mkDocument (clean_id d) company (clean_source d) (clean_text d)
             (clean_title d) (clean_url d) (clean_fetched d) v.

Definition index_one (company : js_string) (store : VectorStore) (d : CleanDocument)
  : VectorStore :=
  match embed (clean_text d) with
  | None => store
  | Some v =>
      <[company := <[clean_id d := stamp company d v]> (default ∅ (store !! company))]> store
  end.

Definition index (company : js_string) (docs : list CleanDocument) (store : VectorStore)
  : VectorStore :=
  foldl (index_one company) store docs.

(** Modelled from the spec: delete-by-company, the effect of an explicit
    reset. *)
Definition reset (company : js_string) (store : VectorStore) : VectorStore :=
  delete company store.

Inductive Op :=
| Index (company : js_string) (docs : list CleanDocument)
| Reset (company : js_string).

Definition apply_op (store : VectorStore) (op : Op) : VectorStore :=
  match op with
  | Index company docs => index company docs store
  | Reset company => reset company store
  end.

(** The store after a history of research runs and resets. *)
Definition store_after (history : list Op) : VectorStore := foldl apply_op ∅ history.

(** The company an operation is run for, and the part of a history that
    was run for one company. *)
Definition company_of (op : Op) : js_string :=
  match op with
  | Index company _ => company
  | Reset company => company
  end.

Definition history_of (company : js_string) (history : list Op) : list Op :=
  filter (λ op, company_of op = company) history.

Fixpoint insert_by_score (q : Vec) (d : Document) (l : list Document) : list Document :=
  match l with
  | [] => [d]
  | d' :: r =>
      if (similarity q (embedding d') <? similarity q (embedding d))%Z
      then d :: l
      else d' :: insert_by_score q d r
  end.

(** Nearest first. *)
Definition rank (q : Vec) (docs : list Document) : list Document :=
  foldr (insert_by_score q) [] docs.

(** Modelled from the spec: the retrieval step of [answer(company_id,
    question)] (section 4.5): NotFoundError without a collection, then the
    top-k nearest Documents of that company's collection. *)
Definition retrieve (store : VectorStore) (company question : js_string)
  : ChatError + list Document :=
  match store !! company with
  | None => inl NotFoundError
  | Some collection =>
      match embed question with
      | None => inl DependencyError
      | Some q => inr (take top_k (rank q (map snd (map_to_list collection))))
      end
  end.

(** Modelled from the spec: the grounded prompt and the answer. *)
Definition grounded_prompt (docs : list Document) (question : js_string) : js_string :=
  concat (map text docs) ++ question.

Definition answer (store : VectorStore) (company question : js_string)
  : ChatError + js_string :=
  match retrieve store company question with
  | inl e => inl e
  | inr [] => inr fallback
  | inr docs =>
      match complete (grounded_prompt docs question) with
      | None => inl DependencyError
      | Some response => inr response
      end
  end.

(** Every stored Document carries the identifier of the collection it is
    in. *)
Definition partitioned (store : VectorStore) : Prop :=
  ∀ company collection key d,
    store !! company = Some collection → collection !! key = Some d →
    company_id d = company.

(** A Document is indexed under a company when it sits in that company's
    collection. *)
Definition indexed_under (store : VectorStore) (company : js_string) (d : Document) : Prop :=
  ∃ collection key, store !! company = Some collection ∧ collection !! key = Some d.

(** A Document stems from a research run of a company when that run's
    batch has a cleaned document of which it is the embedded, stamped
    copy. *)
Definition stems_from (history : list Op) (company : js_string) (d : Document) : Prop :=
  ∃ batch cd v,
    Index company batch ∈ history ∧ cd ∈ batch
    ∧ embed (clean_text cd) = Some v ∧ d = stamp company cd v.

End WithProviders.

End Backend.

(** ** Vocabulary of the properties *)

(** The call an environment event settles, and how. *)
Definition settles (ev : Event) : option (nat * Settled) :=
  match ev with
  | HttpReply id r => Some (id, axios_settle r)
  | NetworkError id => Some (id, Rejected (mkAxiosError None))
  | _ => None
  end.

(** [ev] makes call [id] fail. *)
Definition fails (ev : Event) (id : nat) : Prop :=
  ∃ e, settles ev = Some (id, Rejected e).

(** In the log [l] (newest first) a research request for [c] was sent and
    later answered with a 2xx status. *)
Definition research_succeeded (l : list Obs) (c : js_string) : Prop :=
  ∃ id r newer older,
    l = newer ++ Settle id (Fulfilled r) :: older
    ∧ Sent id (call_request (api.researchCompany c)) ∈ older
    ∧ (200 ≤ status r < 300)%Z.

(** Every request to [/chat/] in the log is a [sendChatMessage] for a
    company whose research had succeeded before it was sent. *)
Definition chat_after_research (l : list Obs) : Prop :=
  ∀ newer id req older,
    l = newer ++ Sent id req :: older →
    url req = lit "/chat/" →
    ∃ c p, req = call_request (api.sendChatMessage c p) ∧ research_succeeded older c.

(** The chat calls of the mounted [ChatInterface] that are in flight. *)
Definition own_chat_call (w : World) (id : nat) : Prop :=
  ∃ result, pending w !! id = Some (PendingChat (inst w) result).

Definition flip (r : ChatInterface.Role) : ChatInterface.Role :=
  match r with
  | ChatInterface.user => ChatInterface.assistant
  | ChatInterface.assistant => ChatInterface.user
  end.

(** The roles of the messages alternate, starting with [r]. *)
Fixpoint alternates (r : ChatInterface.Role) (l : list ChatInterface.Message) : Prop :=
  match l with
  | [] => True
  | m :: rest => ChatInterface.role m = r ∧ alternates (flip r) rest
  end.

(** The reading of the progress display without a client-side timer: a
    tick of an interval never changes what is on screen. *)
Definition progress_without_timers : Prop :=
  ∀ w id w', reachable w → dispatch w (IntervalTick id) = Some w' →
    progress_on_screen w' = progress_on_screen w.

(** The reading in which the body of the research response is itself the
    record handed to [Visualization]. *)
Definition visualization_gets_response_body : Prop :=
  ∀ c r w,
    trim c ≠ [] → (200 ≤ status r < 300)%Z →
    run [ChangeCompanyName c; SubmitResearch; HttpReply 0 r; TimeoutFire 0] init = Some w →
    App.visualization_props (app w) = Some (data r, c).

(** The reading in which a not-found failure of a chat call is shown with
    a message of its own. *)
Definition not_found_shown_differently : Prop :=
  ∀ w id not_found dependency w1 w2,
    reachable w → own_chat_call w id →
    status not_found = 404%Z → status dependency = 503%Z →
    dispatch w (HttpReply id not_found) = Some w1 →
    dispatch w (HttpReply id dependency) = Some w2 →
    last (chat_messages w1) ≠ last (chat_messages w2).

(** The reading in which the message list has odd length in every state. *)
Definition transcript_always_odd : Prop :=
  ∀ w st, reachable w → view w = ChatView st →
    Nat.odd (length (ChatInterface.messages st)) = true.

Definition owner_of (p : Pending) : nat :=
  match p with
  | PendingResearch owner _ _ => owner
  | PendingChat owner _ => owner
  end.

(** Invariant of the page, part one: the mounted component and the calls
    in flight. *)
Record chat_inv (w : World) : Prop := mkChatInv {
  inv_view :
    match view w with
    | ResearchView _ => App.step (app w) = App.research
    | ChatView _ => App.step (app w) = App.chat
    end;
  inv_owner : ∀ id p, pending w !! id = Some p → id < next_id w ∧ owner_of p ≤ inst w;
  inv_idle : ∀ st, view w = ChatView st → ChatInterface.loading st = false →
             ∀ id, ¬ own_chat_call w id;
  inv_busy : ∀ st, view w = ChatView st → ChatInterface.loading st = true →
             ∃ id, own_chat_call w id;
  inv_single : ∀ st, view w = ChatView st →
               ∀ id1 id2, own_chat_call w id1 → own_chat_call w id2 → id1 = id2;
  inv_greeting : ∀ st, view w = ChatView st →
                 ∃ c0 rest, ChatInterface.messages st = ChatInterface.greeting c0 :: rest;
  inv_alternates : ∀ st, view w = ChatView st →
                   alternates ChatInterface.assistant (ChatInterface.messages st);
  inv_parity : ∀ st, view w = ChatView st →
               Nat.odd (length (ChatInterface.messages st)) = negb (ChatInterface.loading st)
}.

(** Invariant of the page, part two: what the network has seen. *)
Record log_inv (w : World) : Prop := mkLogInv {
  inv_company : App.step (app w) = App.chat →
                research_succeeded (log w) (App.currentCompany (app w));
  inv_timeouts : ∀ id c response, timeouts w !! id = Some (c, response) →
                 research_succeeded (log w) c;
  inv_sent : ∀ id owner c result, pending w !! id = Some (PendingResearch owner c result) →
             Sent id (call_request (api.researchCompany c)) ∈ log w;
  inv_log : chat_after_research (log w);
  inv_prompts : ∀ id req, Sent id req ∈ log w → url req = lit "/chat/" →
                ∃ c p, req = call_request (api.sendChatMessage c p)
                       ∧ ∃ ch, ch ∈ p ∧ is_white_space ch = false
}.

(** What the progress panel shows after [n] ticks of a submission's
    interval. *)
Definition shown_after (n : nat) : js_string :=
  match n with
  | 0 => lit "Initializing AI agents..."
  | S m => default [] (ResearchForm.simulateProgress !! (m `min` 5))
  end.

(** Two pages with the same mounted instance, the same calls in flight and
    the same conversation. *)
Definition same_shape (w w' : World) : Prop :=
  App.step (app w') = App.step (app w) ∧ inst w' = inst w ∧ next_id w' = next_id w
  ∧ pending w' = pending w
  ∧ match view w, view w' with
    | ResearchView _, ResearchView _ => True
    | ChatView st, ChatView st' =>
        ChatInterface.messages st' = ChatInterface.messages st
        ∧ ChatInterface.loading st' = ChatInterface.loading st
    | _, _ => False
    end.

(** Two pages with the same application state, calls in flight, pending
    timeouts and log. *)
Definition same_net (w w' : World) : Prop :=
  app w' = app w ∧ pending w' = pending w ∧ timeouts w' = timeouts w ∧ log w' = log w.

(** ** A session used in the examples *)

Definition acme : js_string := lit "Acme".

Definition acme_viz : JsVal :=
  JObj [(lit "summary", JStr (lit "Acme makes anvils."));
        (lit "sources_breakdown",
           JObj [(lit "web", JNum 3); (lit "news", JNum 2); (lit "code_host", JNum 1)]);
        (lit "total_sources", JNum 6)].

Definition research_ok : Response := mkResponse 200 (JObj [(lit "viz_data", acme_viz)]).

Definition researching : list Event := [ChangeCompanyName acme; SubmitResearch].

Definition researched : list Event := researching ++ [HttpReply 0 research_ok; TimeoutFire 0].

Definition asking : list Event :=
  researched ++ [ChangeInput (lit " What do they sell? "); SubmitChat].

Definition world_after (evs : list Event) : World := default init (run evs init).

Definition chat_state (w : World) : ChatInterface.state :=
  match view w with
  | ChatView st => st
  | ResearchView _ => ChatInterface.init []
  end.

Definition blank_input : list Event := researched ++ [ChangeInput (lit "   ")].

Definition not_found : Response :=
  mkResponse 404 (JObj [(lit "error", JStr (lit "Please research this company first."))]).

Definition unavailable : Response :=
  mkResponse 503 (JObj [(lit "error", JStr (lit "LLM provider unreachable."))]).

(** A research response whose body carries the three fields at top level. *)
Definition flat_ok : Response := mkResponse 200 acme_viz.

Definition researched_flat : list Event :=
  researching ++ [HttpReply 0 flat_ok; TimeoutFire 0].

(** Two companies whose corpora hold the same text under the same
    dedup-key. *)
Definition globex : js_string := lit "Globex".

Definition anvil_page : Backend.CleanDocument :=
  Backend.mkClean (lit "9f2c") Backend.web (lit "anvils and rockets") None None 0.

Definition toy_embed (s : js_string) : option Z := Some (Z.of_nat (length s)).

Definition toy_similarity (a b : Z) : Z := (- Z.abs (a - b))%Z.

Definition toy_history : list Backend.Op :=
  [Backend.Index acme [anvil_page]; Backend.Index globex [anvil_page]].

Definition anvil_of (company : js_string) : Backend.Document :=
  Backend.mkDocument (lit "9f2c") company Backend.web (lit "anvils and rockets")
    None None 0 18%Z.

(** The page after a submission from the fresh form and [n] ticks of its
    interval, with no reply yet. *)
Definition ticking (c : js_string) (n : nat) : World :=
  mkWorld App.init 0
    (ResearchView (ResearchForm.mkState c true (JStr []) (shown_after n)))
    1
    {[0 := PendingResearch 0 c (λ response, data response)]}
    {[0 := (0, n `min` 6)]}
    ∅
    [Sent 0 (call_request (api.researchCompany c))].

(** Chat calls in flight return the body of their response. *)
Definition result_inv (w : World) : Prop :=
  ∀ id owner result, pending w !! id = Some (PendingChat owner result) →
    ∀ r, result r = data r.

(** ** Vocabulary of further properties *)

(** Only white space, or empty. *)
Definition blank (s : js_string) : bool := forallb is_white_space s.

(** components/Visualization.jsx: the palette, and the fill of the [Cell]
    of each slice, [COLORS[index % COLORS.length]]; [None] would be
    [undefined]. *)
Definition COLORS : list js_string :=
  [ lit "#a855f7"; lit "#ec4899"; lit "#f97316";
    lit "#3b82f6"; lit "#10b981"; lit "#f59e0b" ].

Definition cell_fills (chartData : list (js_string * JsVal)) : list (option js_string) :=
  imap (λ index _, COLORS !! (index `mod` length COLORS)) chartData.

(** The strings [handleSubmit] of the research form and its interval put
    into [progress] while a request is awaited. *)
Definition stage_strings : list js_string :=
  lit "Initializing AI agents..." :: ResearchForm.simulateProgress.

(** Invariant of the page, part three: the research form while loading. *)
Definition form_inv (w : World) : Prop :=
  ∀ f, view w = ResearchView f → ResearchForm.loading f = true →
    ResearchForm.progress f ∈ stage_strings.

(** Invariant of the page, part four: company names. *)
Record company_inv (w : World) : Prop := mkCompanyInv {
  inv_named_pending : ∀ id owner c result,
    pending w !! id = Some (PendingResearch owner c result) → c ≠ [];
  inv_named_timeouts : ∀ id c response, timeouts w !! id = Some (c, response) → c ≠ [];
  inv_named_step : App.currentCompany (app w) ≠ [] ↔ App.step (app w) = App.chat
}.

(** Invariant of the page, part five: every research call in flight has
    its interval registered. *)
Definition interval_inv (w : World) : Prop :=
  ∀ id owner c result, pending w !! id = Some (PendingResearch owner c result) →
    is_Some (intervals w !! id).

(** The conversation after the call in flight was answered with [m]. *)
Definition answered (st : ChatInterface.state) (m : ChatInterface.Message)
  : ChatInterface.state :=
  ChatInterface.mkState (ChatInterface.messages st ++ [m]) (ChatInterface.input st) false.

(** The reading in which the whole page never has two chat calls in
    flight. *)
Definition one_chat_call_in_flight : Prop :=
  ∀ w id1 id2 owner1 owner2 result1 result2,
    reachable w →
    pending w !! id1 = Some (PendingChat owner1 result1) →
    pending w !! id2 = Some (PendingChat owner2 result2) →
    id1 = id2.

(** A conversation left behind by 'New Research' with its call in flight. *)
Definition abandoned : list Event := asking ++ [StartNew].

(** After the question of [asking]: 'New Research', the same company
    researched again, and a second question typed while the first is
    unanswered; then that question submitted. *)
Definition returned : list Event :=
  abandoned ++ [ChangeCompanyName acme; SubmitResearch; HttpReply 2 research_ok;
                TimeoutFire 2; ChangeInput (lit "And now?")].

Definition asked_twice : list Event := returned ++ [SubmitChat].

Definition globex_ok : Response :=
  mkResponse 200
    (JObj [(lit "viz_data", JObj [(lit "summary", JStr (lit "Globex runs the world."))])]).

(** A second research submitted in the half second between the reply of
    the first and its timeout, answered after the page entered the chat
    step. *)
Definition overtaken : list Event :=
  researching ++ [HttpReply 0 research_ok; ChangeCompanyName globex; SubmitResearch;
                  TimeoutFire 0; HttpReply 1 globex_ok].

(** * Proofs *)

(** ** The definitions on concrete inputs *)

Example trim_input : trim (lit "  What do they sell? ") = lit "What do they sell?".
Proof. vm_compute. reflexivity. Qed.

Example trim_unicode_space : trim [160; 9; 104; 105; 8232; 10]%N = lit "hi".
Proof. vm_compute. reflexivity. Qed.

Example trim_blank : trim (lit "   ") = [].
Proof. vm_compute. reflexivity. Qed.

Example reset_url : url (call_request (api.resetCompany acme)) = lit "/reset/Acme".
Proof. vm_compute. reflexivity. Qed.

Example entries_of_array :
  Object_entries (JArr [JNum 7; JNull]) = Some [(lit "0", JNum 7); (lit "1", JNull)].
Proof. vm_compute. reflexivity. Qed.

Example research_error_from_server :
  ResearchForm.error_message (mkAxiosError (Some not_found))
  = JStr (lit "Please research this company first.").
Proof. vm_compute. reflexivity. Qed.

Example research_error_default :
  ResearchForm.error_message (mkAxiosError None)
  = JStr (lit "Failed to research company. Please try again.").
Proof. vm_compute. reflexivity. Qed.

Example visualization_of_acme :
  Visualization.Visualization (λ s, s) acme_viz acme
  = Some (Visualization.RenderElement
            (Visualization.mkElement acme
               (JStr (lit "Acme makes anvils."))
               [(lit "web", JNum 3); (lit "news", JNum 2); (lit "code_host", JNum 1)]
               (JNum 6)
               [(lit "web", JNum 3); (lit "news", JNum 2); (lit "code_host", JNum 1)])).
Proof. vm_compute. reflexivity. Qed.

Example researched_reaches_chat :
  App.step (app (world_after researched)) = App.chat
  ∧ chat_messages (world_after researched) = [ChatInterface.greeting acme].
Proof. split; vm_compute; reflexivity. Qed.

(** A [null] body on a successful research call: the timeout callback
    throws before calling [onResearchComplete], the page stays where it is. *)
Example null_research_body_stays :
  App.step (app (world_after (researching ++ [HttpReply 0 (mkResponse 200 JNull);
                                             TimeoutFire 0])))
  = App.research.
Proof. vm_compute. reflexivity. Qed.

(** ** Strings *)

Lemma trimStart_head (s : js_string) c r :
  trimStart s = c :: r → is_white_space c = false.
Proof.
  induction s as [|a s IH]; simpl; [done|].
  destruct (is_white_space a) eqn:Ha; [done|].
  intros [= <- <-]. done.
Qed.

Lemma trim_has_visible (s : js_string) :
  trim s ≠ [] → ∃ c, c ∈ trim s ∧ is_white_space c = false.
Proof.
  unfold trim, trimEnd. intros Hne.
  destruct (trimStart (reverse (trimStart s))) as [|c r] eqn:E; [done|].
  exists c. split; [|by eapply trimStart_head].
  rewrite elem_of_reverse. set_solver.
Qed.

(** ** Runs *)

Lemma run_snoc evs ev w :
  run (evs ++ [ev]) w = run evs w ≫= λ w', dispatch w' ev.
Proof.
  revert w. induction evs as [|e evs IH]; intros w; simpl.
  - by destruct (dispatch w ev).
  - destruct (dispatch w e); simpl; [apply IH|done].
Qed.

Lemma reachable_init : reachable init.
Proof. by exists []. Qed.

Lemma reachable_step w ev w' :
  reachable w → dispatch w ev = Some w' → reachable w'.
Proof.
  intros [evs Hevs] Hd. exists (evs ++ [ev]).
  by rewrite run_snoc, Hevs.
Qed.

Lemma reachable_invariant (P : World → Prop) :
  P init →
  (∀ w ev w', reachable w → P w → dispatch w ev = Some w' → P w') →
  ∀ w, reachable w → P w.
Proof.
  intros Hinit Hstep w [evs Hevs]. revert w Hevs.
  induction evs as [|ev evs IH] using rev_ind; intros w Hevs.
  - by injection Hevs as <-.
  - rewrite run_snoc in Hevs.
    destruct (run evs init) as [w0|] eqn:E; [|done]. simpl in Hevs.
    eapply Hstep; [by exists evs|by apply IH|done].
Qed.

(** ** The invariant: the mounted conversation *)

Lemma alternates_snoc r l m :
  alternates r l →
  ChatInterface.role m = (if Nat.odd (length l) then flip r else r) →
  alternates r (l ++ [m]).
Proof.
  revert r. induction l as [|a l IH]; intros r; simpl.
  - by intros _ ->.
  - intros [Ha Hl] Hm. split; [done|]. apply IH; [done|].
    rewrite Nat.odd_succ, <- Nat.negb_odd in Hm.
    destruct (Nat.odd (length l)), r; simpl in *; done.
Qed.

Lemma same_shape_refl w : same_shape w w.
Proof. repeat split. by destruct (view w). Qed.

Lemma chat_inv_same_shape w w' : chat_inv w → same_shape w w' → chat_inv w'.
Proof.
  intros [Hv Ho Hi Hb Hs Hg Ha Hp] (Happ & Hinst & Hnext & Hpend & Hview).
  assert (Hown : ∀ id, own_chat_call w' id ↔ own_chat_call w id).
  { intros id. unfold own_chat_call. by rewrite Hpend, Hinst. }
  split.
  - rewrite Happ. destruct (view w), (view w'); done.
  - rewrite Hpend, Hnext, Hinst. done.
  - intros st' E Hl id. rewrite Hown. rewrite E in Hview.
    destruct (view w) as [|st] eqn:Ev; [done|]. destruct Hview as [_ Hload].
    eapply Hi; [done|congruence].
  - intros st' E Hl. rewrite E in Hview.
    destruct (view w) as [|st] eqn:Ev; [done|]. destruct Hview as [_ Hload].
    destruct (Hb st eq_refl) as [id Hid]; [congruence|]. exists id. by apply Hown.
  - intros st' E id1 id2. rewrite !Hown. rewrite E in Hview.
    destruct (view w) as [|st] eqn:Ev; [done|]. by eapply Hs.
  - intros st' E. rewrite E in Hview.
    destruct (view w) as [|st] eqn:Ev; [done|]. destruct Hview as [-> _]. by eapply Hg.
  - intros st' E. rewrite E in Hview.
    destruct (view w) as [|st] eqn:Ev; [done|]. destruct Hview as [-> _]. by eapply Ha.
  - intros st' E. rewrite E in Hview.
    destruct (view w) as [|st] eqn:Ev; [done|]. destruct Hview as [-> ->]. by eapply Hp.
Qed.

Lemma with_form_same_shape owner f w : same_shape w (with_form owner f w).
Proof.
  unfold with_form. destruct (view w) eqn:E; [|apply same_shape_refl].
  case_decide; [|apply same_shape_refl].
  repeat split. simpl. by rewrite E.
Qed.

(** A checked update of the form that went through is an update of the
    form. *)
Lemma with_form_opt_Some owner f w w' :
  with_form_opt owner f w = Some w' →
  ∃ st', w' = with_form owner (λ _, st') w
         ∧ (w' = w ∨ ∃ st, view w = ResearchView st ∧ inst w = owner ∧ f st = Some st').
Proof.
  unfold with_form_opt, with_form. destruct (view w) as [st|] eqn:E.
  - destruct (decide (inst w = owner)) as [Ho|Ho].
    + destruct (f st) as [st'|] eqn:Ef; simpl; [|done]. intros [= <-].
      exists st'. split; [done|]. right. by exists st.
    + intros [= <-]. exists ResearchForm.init. split; [done|]. by left.
  - intros [= <-]. exists ResearchForm.init. split; [done|]. by left.
Qed.

(** The resumption of a research handler, from its equation. *)
Ltac research_settled H :=
  first [ injection H as <-
        | apply with_form_opt_Some in H as (? & -> & _) ].

Ltac research_settled_in H w' :=
  first [ injection H as H; subst w'
        | apply with_form_opt_Some in H as (? & -> & _) ].

Lemma same_shape_trans w1 w2 w3 : same_shape w1 w2 → same_shape w2 w3 → same_shape w1 w3.
Proof.
  intros (?&?&?&?&Hv12) (?&?&?&?&Hv23). repeat split; try congruence.
  destruct (view w1), (view w2), (view w3); try done.
  destruct Hv12, Hv23. split; congruence.
Qed.

Lemma chat_inv_init : chat_inv init.
Proof.
  split; simpl; done.
Qed.


Lemma chat_inv_research_view w f :
  view w = ResearchView f →
  App.step (app w) = App.research →
  (∀ id p, pending w !! id = Some p → id < next_id w ∧ owner_of p ≤ inst w) →
  chat_inv w.
Proof.
  intros E Hstep Ho. split; try (intros st; rewrite E; discriminate); [|done].
  by rewrite E.
Qed.

Lemma chat_inv_mount w a :
  chat_inv w → App.step a = App.chat → chat_inv (set_app a w).
Proof.
  intros Hinv Hstep. unfold set_app. rewrite Hstep.
  destruct (view w) as [f|st] eqn:E.
  - assert (Hnone : ∀ id, ¬ own_chat_call
       (mkWorld a (S (inst w)) (ChatView (ChatInterface.init (App.currentCompany a)))
                (next_id w) (pending w) (intervals w) (timeouts w) (log w)) id).
    { intros id [result Hid]. simpl in Hid.
      apply (inv_owner _ Hinv) in Hid as [_ Hle]. simpl in Hle. lia. }
    split; simpl.
    + done.
    + intros id p Hp. apply (inv_owner _ Hinv) in Hp. lia.
    + intros st _ _. apply Hnone.
    + intros st [= <-]. done.
    + intros st _ id1 id2 H1. by apply Hnone in H1.
    + intros st [= <-]. by eexists _, _.
    + intros st [= <-]. simpl. done.
    + intros st [= <-]. done.
  - eapply chat_inv_same_shape; [done|]. repeat split; simpl.
    + pose proof (inv_view _ Hinv) as Hv. rewrite E in Hv. congruence.
    + by rewrite E.
Qed.

Lemma chat_inv_unmount w a :
  chat_inv w → App.step a = App.research → chat_inv (set_app a w).
Proof.
  intros Hinv Hstep. unfold set_app. rewrite Hstep.
  destruct (view w) as [f|st] eqn:E.
  - eapply chat_inv_research_view; simpl; [done..|]. apply (inv_owner _ Hinv).
  - eapply chat_inv_research_view; simpl; [done..|].
    intros id p Hp. apply (inv_owner _ Hinv) in Hp. lia.
Qed.

Lemma chat_inv_submit_chat w st st' call :
  chat_inv w → view w = ChatView st →
  ChatInterface.handleSubmit (App.currentCompany (app w)) st = Some (st', call) →
  chat_inv (mkWorld (app w) (inst w) (ChatView st') (S (next_id w))
              (<[next_id w := PendingChat (inst w) (call_result call)]> (pending w))
              (intervals w) (timeouts w)
              (Sent (next_id w) (call_request call) :: log w)).
Proof.
  intros [Hv Ho Hi Hb Hs Hg Ha Hp] E Hsub.
  unfold ChatInterface.handleSubmit in Hsub.
  destruct (trim (ChatInterface.input st)) as [|c0 p0] eqn:Et; [done|].
  destruct (ChatInterface.loading st) eqn:El; [done|]. injection Hsub as <- <-.
  specialize (Hi st E El). specialize (Hp st E). rewrite El in Hp. simpl in Hp.
  split; simpl.
  - by rewrite E in Hv.
  - intros id p. rewrite lookup_insert. case_decide.
    + intros [= <-]. simpl. lia.
    + intros Hl. apply Ho in Hl. lia.
  - intros ? [= <-]. done.
  - intros _ _ _. exists (next_id w), (λ response, data response). simpl.
    by rewrite lookup_insert_eq.
  - intros _ _ id1 id2 [r1 H1] [r2 H2]. simpl in *.
    destruct (decide (id1 = next_id w)) as [->|N1];
      destruct (decide (id2 = next_id w)) as [->|N2]; [done|exfalso..].
    + rewrite lookup_insert_ne in H2 by done. apply (Hi id2). by exists r2.
    + rewrite lookup_insert_ne in H1 by done. apply (Hi id1). by exists r1.
    + rewrite lookup_insert_ne in H1 by done. apply (Hi id1). by exists r1.
  - intros ? [= <-]. simpl. destruct (Hg st E) as (g & rest & ->). by eexists _, _.
  - intros ? [= <-]. simpl. apply alternates_snoc; [by apply Ha|]. by rewrite Hp.
  - intros ? [= <-]. simpl. rewrite length_app. simpl.
    rewrite Nat.add_1_r, Nat.odd_succ, <- Nat.negb_odd, Hp. done.
Qed.

Lemma chat_inv_delete w id :
  chat_inv w →
  (∀ st, view w = ChatView st → ¬ own_chat_call w id) →
  chat_inv (mkWorld (app w) (inst w) (view w) (next_id w) (delete id (pending w))
              (intervals w) (timeouts w) (log w)).
Proof.
  intros [Hv Ho Hi Hb Hs Hg Ha Hp] Hnot.
  split; simpl; try done.
  - intros id' p Hl. apply lookup_delete_Some in Hl as [_ Hl]. by apply Ho.
  - intros st E El id' [r Hr]. simpl in Hr. apply lookup_delete_Some in Hr as [_ Hr].
    apply (Hi st E El id'). by exists r.
  - intros st E El. destruct (Hb st E El) as [id' [r Hr]].
    exists id', r. simpl. apply lookup_delete_Some. split; [|done].
    intros ->. apply (Hnot st E). by exists r.
  - intros st E id1 id2 [r1 H1] [r2 H2]. simpl in *.
    apply lookup_delete_Some in H1 as [_ H1]. apply lookup_delete_Some in H2 as [_ H2].
    apply (Hs st E); by eexists.
Qed.

Lemma chat_inv_answered w id st m tl :
  chat_inv w → view w = ChatView st → own_chat_call w id →
  ChatInterface.role m = ChatInterface.assistant →
  chat_inv (mkWorld (app w) (inst w)
              (ChatView (ChatInterface.mkState (ChatInterface.messages st ++ [m])
                           (ChatInterface.input st) false))
              (next_id w) (delete id (pending w)) (intervals w) (timeouts w) tl).
Proof.
  intros [Hv Ho Hi Hb Hs Hg Ha Hp] E Hown Hm.
  assert (El : ChatInterface.loading st = true).
  { destruct (ChatInterface.loading st) eqn:El; [done|]. by destruct (Hi st E El id). }
  specialize (Hp st E). rewrite El in Hp. simpl in Hp.
  split; simpl.
  - by rewrite E in Hv.
  - intros id' p Hl. apply lookup_delete_Some in Hl as [_ Hl]. by apply Ho.
  - intros ? [= <-] _ id' [r Hr]. simpl in Hr.
    apply lookup_delete_Some in Hr as [Hne Hr]. apply Hne.
    apply (Hs st E); [done|by exists r].
  - intros ? [= <-]. done.
  - intros ? [= <-] id1 id2 [r1 H1] [r2 H2]. simpl in *.
    apply lookup_delete_Some in H1 as [_ H1]. apply lookup_delete_Some in H2 as [_ H2].
    apply (Hs st E); by eexists.
  - intros ? [= <-]. simpl. destruct (Hg st E) as (g & rest & ->). by eexists _, _.
  - intros ? [= <-]. simpl. apply alternates_snoc; [by apply Ha|]. by rewrite Hp.
  - intros ? [= <-]. simpl. rewrite length_app. simpl.
    rewrite Nat.add_1_r, Nat.odd_succ, <- Nat.negb_odd, Hp. done.
Qed.

Lemma chat_inv_timers w iv ts :
  chat_inv w →
  chat_inv (mkWorld (app w) (inst w) (view w) (next_id w) (pending w) iv ts (log w)).
Proof. intros H. eapply chat_inv_same_shape; [done|]. repeat split. simpl. by destruct (view w). Qed.

Lemma chat_inv_logged w l :
  chat_inv w →
  chat_inv (mkWorld (app w) (inst w) (view w) (next_id w) (pending w)
              (intervals w) (timeouts w) l).
Proof. intros H. eapply chat_inv_same_shape; [done|]. repeat split. simpl. by destruct (view w). Qed.

Lemma chat_inv_settle w id s w' : chat_inv w → settle id s w = Some w' → chat_inv w'.
Proof.
  intros Hinv Hs. unfold settle in Hs.
  destruct (pending w !! id) as [p|] eqn:Ep; [|by simplify_eq].
  destruct p as [owner c result|owner result].
  - (* a research call: the chat view is not touched *)
    assert (Hd : chat_inv (mkWorld (app w) (inst w) (view w) (next_id w)
                   (delete id (pending w)) (intervals w) (timeouts w) (log w))).
    { apply chat_inv_delete; [done|]. intros st _ [r Hr]. congruence. }
    destruct s as [r|e]; research_settled Hs.
    + eapply chat_inv_same_shape; [exact Hd|].
      eapply same_shape_trans; [|apply with_form_same_shape].
      repeat split. simpl. by destruct (view w).
    + eapply chat_inv_same_shape; [exact Hd|].
      eapply same_shape_trans; [|apply with_form_same_shape].
      repeat split. simpl. by destruct (view w).
  - (* a chat call *)
    assert (Hother : (∀ st, view w = ChatView st → inst w ≠ owner) →
              chat_inv (mkWorld (app w) (inst w) (view w) (next_id w)
                 (delete id (pending w)) (intervals w) (timeouts w) (Settle id s :: log w))).
    { intros Hne.
      assert (Hd : chat_inv (mkWorld (app w) (inst w) (view w) (next_id w)
                 (delete id (pending w)) (intervals w) (timeouts w) (log w))).
      { apply chat_inv_delete; [done|]. intros st E [r Hr].
        apply (Hne st E). congruence. }
      exact (chat_inv_logged _ (Settle id s :: log w) Hd). }
    unfold with_chat in Hs. simpl in Hs.
    destruct (view w) as [f|st] eqn:E.
    + destruct s; injection Hs as <-; apply Hother; intros; congruence.
    + destruct (decide (inst w = owner)) as [<-|Hne].
      * assert (Hown : own_chat_call w id) by by exists result.
        destruct s as [r|e]; simpl in Hs.
        -- unfold ChatInterface.on_fulfilled in Hs.
           destruct (get (result r) (lit "response")) as [text|]; [|done].
           simpl in Hs. destruct (renderable text); [|done]. injection Hs as <-.
           by apply (chat_inv_answered w id st (ChatInterface.mkMessage ChatInterface.assistant text)).
        -- injection Hs as <-.
           by apply (chat_inv_answered w id st ChatInterface.apology).
      * destruct s; simpl in Hs; injection Hs as <-; apply Hother; intros ? _; done.
Qed.

Lemma chat_inv_step w ev w' : chat_inv w → dispatch w ev = Some w' → chat_inv w'.
Proof.
  intros Hinv Hd. destruct ev; simpl in Hd.
  - (* ChangeCompanyName *)
    destruct (view w) eqn:E; [destruct (ResearchForm.loading f)|]; simplify_eq; try done.
    eapply chat_inv_same_shape; [done|]. repeat split. simpl. by rewrite E.
  - (* SubmitResearch *)
    destruct (view w) as [f|] eqn:E; [|by simplify_eq].
    destruct (ResearchForm.handleSubmit f) as [[st' call]|]; [|by simplify_eq].
    injection Hd as <-. eapply chat_inv_research_view; simpl; [done| |].
    + pose proof (inv_view _ Hinv) as Hv. by rewrite E in Hv.
    + intros id p. rewrite lookup_insert. case_decide.
      * intros [= <-]. simpl. lia.
      * intros Hl. apply (inv_owner _ Hinv) in Hl. lia.
  - (* IntervalTick *)
    destruct (intervals w !! id) as [[owner n]|]; [|by simplify_eq].
    destruct (ResearchForm.interval_callback n) as [shown n'].
    injection Hd as <-. destruct shown.
    + eapply chat_inv_same_shape; [|apply with_form_same_shape].
      by apply chat_inv_timers.
    + by apply chat_inv_timers.
  - (* TimeoutFire *)
    destruct (timeouts w !! id) as [[c response]|]; [|by simplify_eq].
    destruct (get response (lit "viz_data"));
      [destruct (App.renders _); [|done]|]; injection Hd as <-.
    + apply chat_inv_mount; [|done]. by apply chat_inv_timers.
    + by apply chat_inv_timers.
  - by eapply chat_inv_settle.
  - by eapply chat_inv_settle.
  - (* ChangeInput *)
    destruct (view w) eqn:E; [|destruct (ChatInterface.loading c) eqn:El]; simplify_eq; try done.
    eapply chat_inv_same_shape; [done|]. repeat split. simpl. by rewrite E.
  - (* ClickSuggestion *)
    destruct (view w) eqn:E; [by simplify_eq|].
    case_decide; [|by simplify_eq].
    destruct (ChatInterface.suggestions !! i); simplify_eq; [|done].
    eapply chat_inv_same_shape; [done|]. repeat split. simpl. by rewrite E.
  - (* SubmitChat *)
    destruct (view w) as [|st] eqn:E; [by simplify_eq|].
    destruct (ChatInterface.handleSubmit _ st) as [[st' call]|] eqn:Hsub; [|by simplify_eq].
    injection Hd as <-. by eapply chat_inv_submit_chat.
  - (* StartNew *)
    destruct (App.currentCompany (app w)); injection Hd as <-; [done|].
    by apply chat_inv_unmount.
Qed.

(** ** The invariant: the network log *)

Lemma research_succeeded_cons o l c :
  research_succeeded l c → research_succeeded (o :: l) c.
Proof.
  intros (id & r & newer & older & -> & Hsent & Hr).
  by exists id, r, (o :: newer), older.
Qed.

Lemma chat_after_research_cons o l :
  chat_after_research l →
  (∀ id req, o = Sent id req → url req = lit "/chat/" →
     ∃ c p, req = call_request (api.sendChatMessage c p) ∧ research_succeeded l c) →
  chat_after_research (o :: l).
Proof.
  intros Hl Ho newer id req older Heq Hurl.
  destruct newer as [|o' newer]; simpl in Heq; injection Heq as -> Heq.
  - subst l. by apply (Ho id req).
  - by eapply Hl.
Qed.

Lemma log_inv_same_net w w' : log_inv w → same_net w w' → log_inv w'.
Proof.
  intros [Hc Ht Hs Hl Hp] (Ha & Hpe & Hti & Hlo).
  split; rewrite ?Ha, ?Hpe, ?Hti, ?Hlo; done.
Qed.

Lemma with_form_same_net owner f w : same_net w (with_form owner f w).
Proof. unfold with_form. destruct (view w); [case_decide|]; done. Qed.

Lemma with_chat_same_net owner f w w' : with_chat owner f w = Some w' → same_net w w'.
Proof.
  unfold with_chat. destruct (view w) as [|st]; [by intros [= <-]|].
  destruct (decide (inst w = owner)); [|by intros [= <-]].
  destruct (f st); simpl; [by intros [= <-]|done].
Qed.

Lemma same_net_trans w1 w2 w3 : same_net w1 w2 → same_net w2 w3 → same_net w1 w3.
Proof. intros (?&?&?&?) (?&?&?&?). repeat split; congruence. Qed.

Lemma set_app_net a w :
  app (set_app a w) = a ∧ pending (set_app a w) = pending w
  ∧ timeouts (set_app a w) = timeouts w ∧ log (set_app a w) = log w.
Proof. unfold set_app. destruct (App.step a), (view w); done. Qed.

Lemma log_inv_init : log_inv init.
Proof.
  split; simpl; try done.
  - intros newer id req older Heq. by destruct newer.
  - intros id req Hin. by apply elem_of_nil in Hin.
Qed.

Lemma log_inv_settle w id s w' :
  log_inv w →
  (∀ r, s = Fulfilled r → (200 ≤ status r < 300)%Z) →
  settle id s w = Some w' → log_inv w'.
Proof.
  intros Hinv Hrange Hs. unfold settle in Hs.
  destruct (pending w !! id) as [p|] eqn:Ep; [|by simplify_eq].
  destruct Hinv as [Hc Ht Hsent Hl Hp].
  assert (Hbase : ∀ iv, log_inv (mkWorld (app w) (inst w) (view w) (next_id w)
            (delete id (pending w)) iv (timeouts w) (Settle id s :: log w))).
  { intros iv. split; simpl.
    - intros Hstep. by apply research_succeeded_cons, Hc.
    - intros id' c response Hlk. by eapply research_succeeded_cons, Ht.
    - intros id' owner c result Hlk. apply lookup_delete_Some in Hlk as [_ Hlk].
      apply elem_of_cons. right. by eapply Hsent.
    - apply chat_after_research_cons; [done|]. intros; discriminate.
    - intros id' req Hin. apply elem_of_cons in Hin as [|Hin]; [done|]. by eapply Hp. }
  destruct p as [owner c result|owner result].
  - destruct s as [r|e]; research_settled Hs.
    + eapply log_inv_same_net; [|apply with_form_same_net].
      specialize (Hbase (delete id (intervals w))). destruct Hbase as [Hc' Ht' Hs' Hl' Hp'].
      split; simpl in *; try done.
      intros id' c' response. rewrite lookup_insert. case_decide.
      * intros [= <- <-]. exists id, r, [], (log w). split; [done|].
        split; [by eapply Hsent|by apply Hrange].
      * apply Ht'.
    + eapply log_inv_same_net; [|apply with_form_same_net]. apply Hbase.
  - destruct s as [r|e]; (eapply log_inv_same_net; [|by eapply with_chat_same_net]);
      apply Hbase.
Qed.

Lemma axios_settle_range r0 r :
  axios_settle r0 = Fulfilled r → (200 ≤ status r < 300)%Z.
Proof.
  unfold axios_settle.
  destruct ((200 <=? status r0)%Z && (status r0 <? 300)%Z) eqn:E; [|done].
  intros [= <-]. apply andb_true_iff in E as [H1 H2]. lia.
Qed.

Lemma log_inv_step w ev w' :
  chat_inv w → log_inv w → dispatch w ev = Some w' → log_inv w'.
Proof.
  intros Hchat Hinv Hd. destruct ev; simpl in Hd.
  - (* ChangeCompanyName *)
    destruct (view w) eqn:E; [destruct (ResearchForm.loading f)|]; simplify_eq; try done.
    by eapply log_inv_same_net.
  - (* SubmitResearch *)
    destruct (view w) as [f|] eqn:E; [|by simplify_eq].
    unfold ResearchForm.handleSubmit in Hd.
    destruct (trim (ResearchForm.companyName f)); [by simplify_eq|].
    injection Hd as <-. destruct Hinv as [Hc Ht Hsent Hl Hp].
    split; simpl.
    + intros Hstep. by apply research_succeeded_cons, Hc.
    + intros id' c response Hlk. by eapply research_succeeded_cons, Ht.
    + intros id' owner c result. rewrite lookup_insert. case_decide.
      * intros [= <- <- <-]. subst id'. apply elem_of_cons. by left.
      * intros Hlk. apply elem_of_cons. right. by eapply Hsent.
    + apply chat_after_research_cons; [done|]. intros id' req [= <- <-]. done.
    + intros id' req Hin. apply elem_of_cons in Hin as [[= -> ->]|Hin]; [done|].
      by eapply Hp.
  - (* IntervalTick *)
    destruct (intervals w !! id) as [[owner n]|]; [|by simplify_eq].
    destruct (ResearchForm.interval_callback n) as [shown n'].
    injection Hd as <-.
    destruct shown; [eapply log_inv_same_net; [|apply with_form_same_net]|];
      by eapply log_inv_same_net.
  - (* TimeoutFire *)
    destruct (timeouts w !! id) as [[c response]|] eqn:Et; [|by simplify_eq].
    destruct Hinv as [Hc Ht Hsent Hl Hp].
    assert (Hdel : ∀ id' c' response',
              delete id (timeouts w) !! id' = Some (c', response') →
              research_succeeded (log w) c').
    { intros id' c' response' Hlk. apply lookup_delete_Some in Hlk as [_ Hlk].
      by eapply Ht. }
    destruct (get response (lit "viz_data")) as [d|];
      [destruct (App.renders _); [|done]|]; injection Hd as <-.
    + match goal with |- log_inv (set_app ?a ?w1) =>
        destruct (set_app_net a w1) as (Ha & Hpe & Hti & Hlo) end.
      split; rewrite ?Ha, ?Hpe, ?Hti, ?Hlo; simpl; try done.
      intros _. by eapply Ht.
    + split; simpl; done.
  - (* HttpReply *)
    eapply log_inv_settle; [done| |done]. intros r0. apply axios_settle_range.
  - (* NetworkError *)
    eapply log_inv_settle; [done| |done]. intros r0. discriminate.
  - (* ChangeInput *)
    destruct (view w) eqn:E; [|destruct (ChatInterface.loading c) eqn:El]; simplify_eq; try done.
    by eapply log_inv_same_net.
  - (* ClickSuggestion *)
    destruct (view w) eqn:E; [by simplify_eq|].
    case_decide; [|by simplify_eq].
    destruct (ChatInterface.suggestions !! i); simplify_eq; [|done].
    by eapply log_inv_same_net.
  - (* SubmitChat *)
    destruct (view w) as [|st] eqn:E; [by simplify_eq|].
    unfold ChatInterface.handleSubmit in Hd.
    destruct (trim (ChatInterface.input st)) as [|c0 p0] eqn:Etrim; [by simplify_eq|].
    destruct (ChatInterface.loading st); [by simplify_eq|].
    injection Hd as <-. destruct Hinv as [Hc Ht Hsent Hl Hp].
    pose proof (inv_view _ Hchat) as Hv. rewrite E in Hv.
    split; simpl.
    + intros Hstep. by apply research_succeeded_cons, Hc.
    + intros id' c response Hlk. by eapply research_succeeded_cons, Ht.
    + intros id' owner c result. rewrite lookup_insert. case_decide; [done|].
      intros Hlk. apply elem_of_cons. right. by eapply Hsent.
    + apply chat_after_research_cons; [done|]. intros id' req [= <- <-] _.
      eexists _, _. split; [done|]. by apply Hc.
    + intros id' req Hin. apply elem_of_cons in Hin as [[= -> ->]|Hin]; [|by eapply Hp].
      intros _. eexists _, _. split; [done|].
      rewrite <- Etrim. apply trim_has_visible. by rewrite Etrim.
  - (* StartNew *)
    destruct (App.currentCompany (app w)); injection Hd as <-; [done|].
    match goal with |- log_inv (set_app ?a ?w1) =>
      destruct (set_app_net a w1) as (Ha & Hpe & Hti & Hlo) end.
    destruct Hinv as [Hc Ht Hsent Hl Hp].
    split; rewrite ?Ha, ?Hpe, ?Hti, ?Hlo; simpl; done.
Qed.

Lemma page_invariant w : reachable w → chat_inv w ∧ log_inv w.
Proof.
  apply (reachable_invariant (λ w, chat_inv w ∧ log_inv w)).
  - split; [apply chat_inv_init|apply log_inv_init].
  - intros w0 ev w1 _ [Hc Hl] Hd. split.
    + by eapply chat_inv_step.
    + by eapply log_inv_step.
Qed.

Lemma settle_net id s w w' :
  settle id s w = Some w' →
  app w' = app w
  ∧ (pending w' = pending w ∨ pending w' = delete id (pending w))
  ∧ (log w' = log w ∨ log w' = Settle id s :: log w).
Proof.
  unfold settle. destruct (pending w !! id) as [p|]; [|intros [= <-]; tauto].
  destruct p as [owner c result|owner result].
  - destruct s; intros Hw; research_settled Hw;
      match goal with |- context [with_form ?o ?f ?w1] =>
        destruct (with_form_same_net o f w1) as (-> & -> & _ & ->) end;
      simpl; tauto.
  - destruct s; intros Hw; apply with_chat_same_net in Hw as (-> & -> & _ & ->);
      simpl; tauto.
Qed.

Lemma pending_step w ev w' :
  dispatch w ev = Some w' →
  ∀ id p, pending w' !! id = Some p →
    pending w !! id = Some p
    ∨ (∃ c, p = PendingResearch (inst w) c (λ response, data response))
    ∨ p = PendingChat (inst w) (λ response, data response).
Proof.
  intros Hd id' p. destruct ev; simpl in Hd.
  - destruct (view w); [destruct (ResearchForm.loading f)|]; injection Hd as <-; tauto.
  - destruct (view w) as [f|]; [|injection Hd as <-; tauto].
    unfold ResearchForm.handleSubmit in Hd.
    destruct (trim (ResearchForm.companyName f)); injection Hd as <-; [tauto|].
    simpl. rewrite lookup_insert. case_decide; [|tauto].
    intros [= <-]. right. left. by eexists.
  - destruct (intervals w !! id) as [[owner n]|]; [|injection Hd as <-; tauto].
    destruct (ResearchForm.interval_callback n) as [[s|] n']; injection Hd as <-; [|tauto].
    match goal with |- context [with_form ?o ?f ?w1] =>
      destruct (with_form_same_net o f w1) as (_ & -> & _) end. tauto.
  - destruct (timeouts w !! id) as [[c response]|]; [|injection Hd as <-; tauto].
    destruct (get response (lit "viz_data"));
      [destruct (App.renders _); [|done]|]; injection Hd as <-; [|tauto].
    match goal with |- context [set_app ?a ?w1] =>
      destruct (set_app_net a w1) as (_ & -> & _) end. tauto.
  - apply settle_net in Hd as (_ & [->| ->] & _); [tauto|].
    intros Hl. apply lookup_delete_Some in Hl. tauto.
  - apply settle_net in Hd as (_ & [->| ->] & _); [tauto|].
    intros Hl. apply lookup_delete_Some in Hl. tauto.
  - destruct (view w) as [|st]; [|destruct (ChatInterface.loading st)];
      injection Hd as <-; tauto.
  - destruct (view w) as [|st]; [injection Hd as <-; tauto|].
    case_decide; [|injection Hd as <-; tauto].
    destruct (ChatInterface.suggestions !! i); injection Hd as <-; tauto.
  - destruct (view w) as [|st]; [injection Hd as <-; tauto|].
    unfold ChatInterface.handleSubmit in Hd.
    destruct (trim (ChatInterface.input st)); [injection Hd as <-; tauto|].
    destruct (ChatInterface.loading st); injection Hd as <-; [tauto|].
    simpl. rewrite lookup_insert. case_decide; [|tauto].
    intros [= <-]. by right; right.
  - destruct (App.currentCompany (app w)); injection Hd as <-; [tauto|].
    match goal with |- context [set_app ?a ?w1] =>
      destruct (set_app_net a w1) as (_ & -> & _) end. tauto.
Qed.

Lemma result_invariant w : reachable w → result_inv w.
Proof.
  apply (reachable_invariant result_inv).
  - intros id owner result. unfold init. simpl. by rewrite lookup_empty.
  - intros w0 ev w1 _ Hinv Hd id owner result Hl.
    destruct (pending_step _ _ _ Hd _ _ Hl) as [H|[[c H]|H]].
    + by eapply Hinv.
    + done.
    + by injection H as -> ->.
Qed.

Lemma app_step w ev w' :
  dispatch w ev = Some w' →
  app w' = app w
  ∨ App.step (app w') = App.research
  ∨ ∃ id c response viz_data,
      ev = TimeoutFire id ∧ timeouts w !! id = Some (c, response)
      ∧ get response (lit "viz_data") = Some viz_data
      ∧ app w' = App.handleResearchComplete c viz_data (app w).
Proof.
  intros Hd. destruct ev; simpl in Hd.
  - destruct (view w); [destruct (ResearchForm.loading f)|]; injection Hd as <-; tauto.
  - destruct (view w) as [f|]; [|injection Hd as <-; tauto].
    destruct (ResearchForm.handleSubmit f) as [[st' call]|]; injection Hd as <-; tauto.
  - destruct (intervals w !! id) as [[owner n]|]; [|injection Hd as <-; tauto].
    destruct (ResearchForm.interval_callback n) as [[s|] n']; injection Hd as <-; [|tauto].
    match goal with |- context [with_form ?o ?f ?w1] =>
      destruct (with_form_same_net o f w1) as (-> & _) end. tauto.
  - destruct (timeouts w !! id) as [[c response]|] eqn:Et; [|injection Hd as <-; tauto].
    destruct (get response (lit "viz_data")) as [d|] eqn:Eg;
      [destruct (App.renders _); [|done]|]; injection Hd as <-; [|tauto].
    right. right. exists id, c, response, d.
    match goal with |- context [set_app ?a ?w1] =>
      destruct (set_app_net a w1) as (-> & _) end. done.
  - apply settle_net in Hd. tauto.
  - apply settle_net in Hd. tauto.
  - destruct (view w) as [|st]; [|destruct (ChatInterface.loading st)];
      injection Hd as <-; tauto.
  - destruct (view w) as [|st]; [injection Hd as <-; tauto|].
    case_decide; [|injection Hd as <-; tauto].
    destruct (ChatInterface.suggestions !! i); injection Hd as <-; tauto.
  - destruct (view w) as [|st]; [injection Hd as <-; tauto|].
    destruct (ChatInterface.handleSubmit _ st) as [[st' call]|]; injection Hd as <-; tauto.
  - destruct (App.currentCompany (app w)); injection Hd as <-; [tauto|].
    match goal with |- context [set_app ?a ?w1] =>
      destruct (set_app_net a w1) as (-> & _) end. tauto.
Qed.


(** ** services/api.js *)



Lemma get_truthy data k : truthy data = true → is_Some (get data k).
Proof. destruct data; simpl; try done; by eexists. Qed.

Lemma entries_js_or v : is_Some (Object_entries (js_or v (JObj []))).
Proof.
  unfold js_or. destruct (truthy v) eqn:E; [|by eexists].
  destruct v; simpl in *; try done; by eexists.
Qed.


(** C4: a chat submission posts to [/chat/] a body with exactly the fields
    [company_name] and [prompt], the company of the page and the trimmed
    input; the request is the same whatever the message history is, and it
    is the request the page puts on the wire. *)
Theorem chat_request_is_stateless (company : js_string) (st : ChatInterface.state) :
  trim (ChatInterface.input st) ≠ [] →
  ChatInterface.loading st = false →
  ∃ st' call,
    ChatInterface.handleSubmit company st = Some (st', call)
    ∧ call_request call
      = mkRequest POST (lit "/chat/")
          (JObj [(lit "company_name", JStr company);
                 (lit "prompt", JStr (trim (ChatInterface.input st)))])
    ∧ (∀ history, ∃ st'',
         ChatInterface.handleSubmit company
           (ChatInterface.mkState history (ChatInterface.input st) (ChatInterface.loading st))
         = Some (st'', call))
    ∧ (∀ w, view w = ChatView st → App.currentCompany (app w) = company →
         ∃ w', dispatch w SubmitChat = Some w'
               ∧ log w' = Sent (next_id w) (call_request call) :: log w).
Proof.
  intros Ht Hl. unfold ChatInterface.handleSubmit. rewrite Hl. simpl.
  destruct (trim (ChatInterface.input st)) as [|c0 p0] eqn:E; [done|].
  eexists _, _. split; [done|]. split; [done|]. split.
  - intros history. by eexists.
  - intros w Hv <-. simpl. rewrite Hv. unfold ChatInterface.handleSubmit.
    rewrite Hl, E. by eexists.
Qed.

Lemma chat_request_is_stateless_witness :
  ∃ st' call,
    ChatInterface.handleSubmit (lit "Acme")
      (ChatInterface.mkState
         [ChatInterface.greeting (lit "Acme");
          ChatInterface.mkMessage ChatInterface.user (JStr (lit "Who founded it?"));
          ChatInterface.mkMessage ChatInterface.assistant (JStr (lit "Wile E. Coyote."))]
         (lit " What do they sell? ") false)
    = Some (st', call)
    ∧ call_request call
      = mkRequest POST (lit "/chat/")
          (JObj [(lit "company_name", JStr (lit "Acme"));
                 (lit "prompt", JStr (lit "What do they sell?"))]).
Proof.
  destruct (chat_request_is_stateless (lit "Acme")
      (ChatInterface.mkState
         [ChatInterface.greeting (lit "Acme");
          ChatInterface.mkMessage ChatInterface.user (JStr (lit "Who founded it?"));
          ChatInterface.mkMessage ChatInterface.assistant (JStr (lit "Wile E. Coyote."))]
         (lit " What do they sell? ") false))
    as (st' & call & H1 & H2 & _).
  - vm_compute. discriminate.
  - reflexivity.
  - exists st', call. split; [exact H1|exact H2].
Defined.

(** ** Visualization *)

(** C10: [Visualization] renders nothing for [null] and [undefined] data,
    never raises, and with [sources_breakdown] absent from the data it
    renders an empty chart data list and an empty per-source list. *)
Theorem Visualization_total_on_missing_inputs
    (toUpperCase : js_string → js_string) (company : js_string) :
  Visualization.Visualization toUpperCase JNull company = Some Visualization.RenderNull
  ∧ Visualization.Visualization toUpperCase JUndefined company = Some Visualization.RenderNull
  ∧ (∀ data, is_Some (Visualization.Visualization toUpperCase data company))
  ∧ (∀ data,
       truthy data = true →
       get data (lit "sources_breakdown") = Some JUndefined →
       ∃ e, Visualization.Visualization toUpperCase data company
              = Some (Visualization.RenderElement e)
            ∧ Visualization.el_chartData e = []
            ∧ Visualization.el_stats e = []).
Proof.
  split; [done|]. split; [done|]. split.
  - intros data. unfold Visualization.Visualization.
    destruct (truthy data) eqn:E; simpl; [|by eexists].
    destruct (get_truthy data (lit "summary") E) as [s ->].
    destruct (get_truthy data (lit "sources_breakdown") E) as [b ->].
    destruct (get_truthy data (lit "total_sources") E) as [t ->]. simpl.
    destruct (entries_js_or b) as [es ->]. simpl. by eexists.
  - intros data E Hb. unfold Visualization.Visualization. rewrite E. simpl.
    destruct (get_truthy data (lit "summary") E) as [s ->].
    destruct (get_truthy data (lit "total_sources") E) as [t ->].
    rewrite Hb. simpl. by eexists.
Qed.

Lemma Visualization_total_on_missing_inputs_witness :
  ∃ e, Visualization.Visualization (λ s, s)
         (JObj [(lit "summary", JStr (lit "No sources were found."));
                (lit "total_sources", JNum 0)]) (lit "Acme")
       = Some (Visualization.RenderElement e)
       ∧ Visualization.el_chartData e = []
       ∧ Visualization.el_stats e = [].
Proof.
  apply (Visualization_total_on_missing_inputs (λ s, s) (lit "Acme")); reflexivity.
Defined.


Lemma reachable_world_after evs w : run evs init = Some w → reachable (world_after evs).
Proof. intros H. exists evs. unfold world_after. by rewrite H. Qed.

(** ** The progress display *)

Lemma interval_callback_min n :
  ResearchForm.interval_callback (n `min` 6)
  = (if decide (n < 6) then Some (shown_after (S n)) else None, S n `min` 6).
Proof.
  do 6 (destruct n as [|n]; [reflexivity|]).
  rewrite decide_False by lia.
  replace (S (S (S (S (S (S n))))) `min` 6) with 6 by lia.
  replace (S (S (S (S (S (S (S n)))))) `min` 6) with 6 by lia.
  reflexivity.
Qed.

Lemma shown_after_late n : ¬ n < 6 → shown_after (S n) = shown_after n.
Proof.
  intros Hn. destruct n as [|m]; [lia|]. unfold shown_after.
  replace (S m `min` 5) with 5 by lia. replace (m `min` 5) with 5 by lia. done.
Qed.

Lemma shown_after_nonempty n : ∃ c0 rest, shown_after n = c0 :: rest.
Proof.
  do 6 (destruct n as [|n]; [by eexists _, _|]).
  unfold shown_after. replace (S (S (S (S (S n)))) `min` 5) with 5 by lia.
  by eexists _, _.
Qed.

Lemma run_ticking c n :
  trim c ≠ [] →
  run (ChangeCompanyName c :: SubmitResearch :: replicate n (IntervalTick 0)) init
  = Some (ticking c n).
Proof.
  intros Hc. induction n as [|n IH].
  - simpl. unfold ResearchForm.handleSubmit. simpl.
    destruct (trim c) eqn:E; [done|]. simpl. unfold ticking. simpl.
    by rewrite !insert_empty.
  - rewrite replicate_S_end.
    change (ChangeCompanyName c :: SubmitResearch :: replicate n (IntervalTick 0) ++ [IntervalTick 0])
      with ((ChangeCompanyName c :: SubmitResearch :: replicate n (IntervalTick 0)) ++ [IntervalTick 0]).
    rewrite run_snoc, IH. simpl. rewrite lookup_singleton_eq.
    rewrite interval_callback_min. rewrite insert_singleton_eq.
    unfold ticking. case_decide as Hn.
    + done.
    + by rewrite shown_after_late.
Qed.

(** C1, as the code has it: after a submission the panel shows
    'Initializing AI agents...', and the n-th tick of the submission's
    interval shows the min(n,6)-th of the six fixed strings, while nothing
    but the request has crossed the network; the reply of the request only
    takes the panel off the screen. *)
Theorem progress_is_timer_driven (c : js_string) (n : nat) :
  trim c ≠ [] →
  ∃ w, run (ChangeCompanyName c :: SubmitResearch :: replicate n (IntervalTick 0)) init = Some w
       ∧ progress_on_screen w = Some (shown_after n)
       ∧ log w = [Sent 0 (call_request (api.researchCompany c))]
       ∧ ∀ ev s w', settles ev = Some (0, s) → dispatch w ev = Some w' →
                    progress_on_screen w' = None.
Proof.
  intros Hc. exists (ticking c n). split; [by apply run_ticking|]. split; [|split; [reflexivity|]].
  - unfold ticking, progress_on_screen, ResearchForm.displayed_progress. simpl.
    by destruct (shown_after_nonempty n) as (c0 & rest & ->).
  - intros ev s w' Hs Hd.
    assert (Hset : settle 0 s (ticking c n) = Some w').
    { destruct ev; simpl in Hs; try done; injection Hs as <- <-; exact Hd. }
    unfold settle in Hset. simpl in Hset. rewrite lookup_singleton_eq in Hset.
    destruct s; [by injection Hset as <-|].
    unfold with_form_opt, ResearchForm.on_rejected in Hset. simpl in Hset.
    destruct (renderable _); [|done]. by injection Hset as <-.
Qed.

Lemma progress_is_timer_driven_witness :
  trim acme ≠ []
  ∧ ∃ w, run (ChangeCompanyName acme :: SubmitResearch :: replicate 2 (IntervalTick 0)) init
         = Some w
         ∧ progress_on_screen w = Some (lit "Planning data collection strategy...").
Proof.
  split; [vm_compute; discriminate|].
  destruct (progress_is_timer_driven acme 2) as (w & Hrun & Hshown & _).
  - vm_compute. discriminate.
  - exists w. split; [exact Hrun|exact Hshown].
Defined.

(** C1, counterexample: with the request still unanswered, one tick of the
    interval changes the string on screen. *)
Lemma progress_advances_on_a_timer :
  progress_on_screen (world_after researching) = Some (lit "Initializing AI agents...")
  ∧ progress_on_screen (world_after (researching ++ [IntervalTick 0]))
    = Some (lit "Searching for company data...")
  ∧ log (world_after (researching ++ [IntervalTick 0])) = log (world_after researching)
  ∧ ¬ progress_without_timers.
Proof.
  split; [vm_compute; reflexivity|]. split; [vm_compute; reflexivity|].
  split; [vm_compute; reflexivity|].
  intros H.
  specialize (H (world_after researching) 0 (world_after (researching ++ [IntervalTick 0]))).
  assert (Hr : reachable (world_after researching)).
  { eapply reachable_world_after. vm_compute. reflexivity. }
  specialize (H Hr). vm_compute in H. specialize (H eq_refl). discriminate.
Qed.


(** ** From the research response to the visualization *)

Lemma App_renders_chat (c : js_string) (viz_data : JsVal) :
  App.renders (App.mkState App.chat c viz_data)
  = if truthy viz_data then Visualization.renders viz_data else true.
Proof.
  unfold App.renders, App.visualization_props. simpl. by destruct (truthy viz_data).
Qed.

(** C2, as the code has it: the record handed to [Visualization] is the
    [viz_data] field of the body of the research response, and the
    component is rendered only when that field is truthy.  This is so when
    React can render what the component shows of the record; when it cannot,
    the page is gone as the timeout fires. *)
Theorem visualization_gets_viz_data (c : js_string) (r : Response) (viz_data : JsVal) :
  trim c ≠ [] → (200 ≤ status r < 300)%Z →
  get (data r) (lit "viz_data") = Some viz_data →
  ((truthy viz_data = true → Visualization.renders viz_data = true) →
   ∃ w, run [ChangeCompanyName c; SubmitResearch; HttpReply 0 r; TimeoutFire 0] init = Some w
        ∧ app w = App.mkState App.chat c viz_data
        ∧ App.visualization_props (app w)
          = if truthy viz_data then Some (viz_data, c) else None)
  ∧ (truthy viz_data = true → Visualization.renders viz_data = false →
     run [ChangeCompanyName c; SubmitResearch; HttpReply 0 r; TimeoutFire 0] init = None).
Proof.
  intros Hc Hr Hv.
  change [ChangeCompanyName c; SubmitResearch; HttpReply 0 r; TimeoutFire 0]
    with ((ChangeCompanyName c :: SubmitResearch :: replicate 0 (IntervalTick 0))
            ++ [HttpReply 0 r] ++ [TimeoutFire 0]).
  rewrite app_assoc, !run_snoc, run_ticking by done. simpl.
  unfold settle. simpl. rewrite lookup_singleton_eq.
  unfold axios_settle.
  replace ((200 <=? status r)%Z && (status r <? 300)%Z) with true
    by (symmetry; apply andb_true_iff; lia).
  simpl. rewrite lookup_insert_eq. rewrite Hv. simpl.
  change (App.handleResearchComplete c viz_data App.init)
    with (App.mkState App.chat c viz_data).
  rewrite App_renders_chat. split.
  - intros Hshow. destruct (truthy viz_data) eqn:Et.
    + rewrite Hshow by done. eexists. split; [reflexivity|].
      unfold set_app. simpl. unfold App.visualization_props. simpl. by rewrite Et.
    + eexists. split; [reflexivity|].
      unfold set_app. simpl. unfold App.visualization_props. simpl. by rewrite Et.
  - intros Et Hshow. by rewrite Et, Hshow.
Qed.

Lemma visualization_gets_viz_data_witness :
  ∃ w, run researched init = Some w
       ∧ App.visualization_props (app w) = Some (acme_viz, acme).
Proof.
  destruct (visualization_gets_viz_data acme research_ok acme_viz) as [Hshown _].
  - vm_compute. discriminate.
  - simpl. lia.
  - reflexivity.
  - destruct Hshown as (w & Hrun & _ & Hp); [reflexivity|].
    exists w. split; [exact Hrun|exact Hp].
Defined.

(** C2, counterexample: a response whose body has [summary],
    [sources_breakdown] and [total_sources] at top level reaches the chat
    step with nothing to visualize. *)
Lemma response_body_is_not_the_record :
  App.step (app (world_after researched_flat)) = App.chat
  ∧ App.vizData (app (world_after researched_flat)) = JUndefined
  ∧ App.visualization_props (app (world_after researched_flat)) = None
  ∧ ¬ visualization_gets_response_body.
Proof.
  split; [vm_compute; reflexivity|]. split; [vm_compute; reflexivity|].
  split; [vm_compute; reflexivity|].
  intros H.
  specialize (H acme flat_ok (world_after researched_flat)).
  assert (Ht : trim acme ≠ []) by (vm_compute; discriminate).
  assert (Hs : (200 ≤ status flat_ok < 300)%Z) by (simpl; lia).
  specialize (H Ht Hs). vm_compute in H. specialize (H eq_refl). discriminate.
Qed.


(** ** Failed chat calls *)

(** C3, as the code has it: every failure of the chat call of the mounted
    conversation, whatever its status or body, appends the same fixed
    apology and changes nothing else of the conversation. *)
Theorem chat_failure_shows_apology (w : World) (st : ChatInterface.state)
    (id : nat) (ev : Event) (w' : World) :
  view w = ChatView st → own_chat_call w id → fails ev id →
  dispatch w ev = Some w' →
  view w'
  = ChatView (ChatInterface.mkState
                (ChatInterface.messages st ++ [ChatInterface.apology])
                (ChatInterface.input st) false).
Proof.
  intros Hv [result Hp] [e He] Hd.
  assert (Hset : settle id (Rejected e) w = Some w').
  { destruct ev; simpl in He; try done; injection He as <- He; by rewrite <- He. }
  unfold settle in Hset. rewrite Hp in Hset. unfold with_chat in Hset. simpl in Hset.
  rewrite Hv, decide_True in Hset by done. simpl in Hset. by injection Hset as <-.
Qed.

Lemma chat_failure_shows_apology_witness :
  view (world_after (asking ++ [HttpReply 1 not_found]))
  = ChatView (ChatInterface.mkState
                (ChatInterface.messages (chat_state (world_after asking))
                   ++ [ChatInterface.apology])
                [] false).
Proof.
  apply (chat_failure_shows_apology (world_after asking) (chat_state (world_after asking))
           1 (HttpReply 1 not_found)).
  - vm_compute. reflexivity.
  - exists (λ response, data response). vm_compute. reflexivity.
  - eexists. vm_compute. reflexivity.
  - vm_compute. reflexivity.
Defined.

(** C3, counterexample: a 404 'research this company first' reply and a
    503 reply leave the same conversation, ending with the apology. *)
Lemma not_found_looks_like_any_failure :
  chat_messages (world_after (asking ++ [HttpReply 1 not_found]))
  = chat_messages (world_after (asking ++ [HttpReply 1 unavailable]))
  ∧ last (chat_messages (world_after (asking ++ [HttpReply 1 not_found])))
    = Some ChatInterface.apology
  ∧ ¬ not_found_shown_differently.
Proof.
  split; [vm_compute; reflexivity|]. split; [vm_compute; reflexivity|].
  intros H.
  specialize (H (world_after asking) 1 not_found unavailable
                (world_after (asking ++ [HttpReply 1 not_found]))
                (world_after (asking ++ [HttpReply 1 unavailable]))).
  assert (Hr : reachable (world_after asking)).
  { eapply reachable_world_after. vm_compute. reflexivity. }
  assert (Ho : own_chat_call (world_after asking) 1).
  { exists (λ response, data response). vm_compute. reflexivity. }
  specialize (H Hr Ho eq_refl eq_refl). vm_compute in H.
  apply (H eq_refl eq_refl eq_refl).
Qed.

(** ** Research before chat *)




(** ** The guard of the chat form *)

(** C9, as the code has it: submitting the chat form with a blank input or
    while [loading] is set leaves the whole page as it is, in particular it
    sends nothing; the mounted conversation has at most one call of its own
    in flight, exactly when [loading] is set; every prompt that was sent
    has a visible character. *)
Theorem blocked_chat_submit_is_noop (w : World) :
  (∀ st, view w = ChatView st →
     trim (ChatInterface.input st) = [] ∨ ChatInterface.loading st = true →
     dispatch w SubmitChat = Some w)
  ∧ (reachable w →
     (∀ st, view w = ChatView st →
        (∀ id1 id2, own_chat_call w id1 → own_chat_call w id2 → id1 = id2)
        ∧ (ChatInterface.loading st = true ↔ ∃ id, own_chat_call w id))
     ∧ (∀ id req, Sent id req ∈ log w → url req = lit "/chat/" →
          ∃ c p, req = call_request (api.sendChatMessage c p)
                 ∧ ∃ ch, ch ∈ p ∧ is_white_space ch = false)).
Proof.
  split.
  - intros st Hv Hblocked. simpl. rewrite Hv. unfold ChatInterface.handleSubmit.
    destruct (trim (ChatInterface.input st)); [done|].
    destruct Hblocked as [Hb|Hb]; [done|]. by rewrite Hb.
  - intros Hr. destruct (page_invariant w Hr) as [Hchat Hlog]. split.
    + intros st Hv. split; [by apply (inv_single _ Hchat st)|]. split.
      * by apply (inv_busy _ Hchat).
      * intros [id Hid]. destruct (ChatInterface.loading st) eqn:El; [done|].
        by destruct (inv_idle _ Hchat st Hv El id).
    + apply (inv_prompts _ Hlog).
Qed.

Lemma blocked_chat_submit_is_noop_witness :
  dispatch (world_after blank_input) SubmitChat = Some (world_after blank_input)
  ∧ dispatch (world_after asking) SubmitChat = Some (world_after asking).
Proof.
  split.
  - apply (proj1 (blocked_chat_submit_is_noop (world_after blank_input))
             (chat_state (world_after blank_input))).
    + vm_compute. reflexivity.
    + left. vm_compute. reflexivity.
  - apply (proj1 (blocked_chat_submit_is_noop (world_after asking))
             (chat_state (world_after asking))).
    + vm_compute. reflexivity.
    + right. vm_compute. reflexivity.
Defined.

(** C9, counterexample: a question, 'New Research', the research again and
    a second question leave two chat calls in flight, the one of the
    conversation that was left behind and the one of the mounted one. *)
Lemma two_chat_calls_in_flight :
  pending (world_after asked_twice) !! 1 = Some (PendingChat 1 (λ response, data response))
  ∧ pending (world_after asked_twice) !! 3 = Some (PendingChat 3 (λ response, data response))
  ∧ inst (world_after asked_twice) = 3
  ∧ ¬ one_chat_call_in_flight.
Proof.
  split; [vm_compute; reflexivity|]. split; [vm_compute; reflexivity|].
  split; [vm_compute; reflexivity|].
  intros H.
  assert (Hr : reachable (world_after asked_twice)).
  { exists asked_twice. vm_compute. reflexivity. }
  specialize (H (world_after asked_twice) 1 3 1 3
                (λ response, data response) (λ response, data response) Hr).
  vm_compute in H. specialize (H eq_refl eq_refl). discriminate.
Qed.

Lemma with_form_chat_view owner f w st :
  view w = ChatView st → with_form owner f w = w.
Proof. unfold with_form. by intros ->. Qed.

(** What a settled call does to the mounted conversation. *)
Lemma settle_chat_view id s w w' st st' :
  result_inv w → chat_inv w →
  settle id s w = Some w' → view w = ChatView st → view w' = ChatView st' →
  st' = st
  ∨ own_chat_call w id ∧ ChatInterface.loading st = true
    ∧ ChatInterface.loading st' = false
    ∧ ∃ m, ChatInterface.messages st' = ChatInterface.messages st ++ [m]
           ∧ match s with
             | Fulfilled r => ∃ text, get (data r) (lit "response") = Some text
                                ∧ renderable text = true
                                ∧ m = ChatInterface.mkMessage ChatInterface.assistant text
             | Rejected _ => m = ChatInterface.apology
             end.
Proof.
  intros Hres Hchat Hs Hv Hv'. unfold settle in Hs.
  destruct (pending w !! id) as [p|] eqn:Ep; [|left; congruence].
  destruct p as [owner c result|owner result].
  - left. destruct s; research_settled Hs;
      rewrite with_form_chat_view with (st:=st) in Hv' by done; simpl in Hv'; congruence.
  - unfold with_chat in Hs. simpl in Hs. rewrite Hv in Hs.
    destruct (decide (inst w = owner)) as [<-|Hne].
    + right.
      assert (Hown : own_chat_call w id) by by exists result.
      assert (El : ChatInterface.loading st = true).
      { destruct (ChatInterface.loading st) eqn:El; [done|].
        by destruct (inv_idle _ Hchat st Hv El id). }
      split; [done|]. split; [done|].
      destruct s as [r|e]; simpl in Hs.
      * unfold ChatInterface.on_fulfilled in Hs. rewrite (Hres _ _ _ Ep r) in Hs.
        destruct (get (data r) (lit "response")) as [text|] eqn:Eg; [|done].
        simpl in Hs. destruct (renderable text) eqn:Er; [|done].
        injection Hs as <-. simpl in Hv'. injection Hv' as <-.
        split; [done|]. eexists. split; [done|]. by exists text.
      * injection Hs as <-. simpl in Hv'. injection Hv' as <-.
        split; [done|]. by eexists.
    + left. destruct s; injection Hs as <-; simpl in Hv'; congruence.
Qed.

Ltac same_view Hv Hv' :=
  simpl in Hv'; rewrite ?Hv in Hv'; simpl in Hv';
  first [ by injection Hv' as <- | congruence ].

(** ** The shape of the conversation *)

(** C8, as the code has it: the message list starts with the greeting and
    alternates assistant and user; its length is odd exactly when the
    conversation has no call of its own in flight ([loading] is off).  The
    settling of that call appends one assistant message: the apology when
    the call failed, the response text when it succeeded with a body whose
    [response] React can render; a successful reply of another kind ends
    the page.  No other event changes the list, but a submission, which
    appends the user's trimmed input. *)
Theorem transcript_alternates (w : World) (st : ChatInterface.state) :
  reachable w → view w = ChatView st →
  (∃ c0 rest, ChatInterface.messages st = ChatInterface.greeting c0 :: rest)
  ∧ alternates ChatInterface.assistant (ChatInterface.messages st)
  ∧ (Nat.odd (length (ChatInterface.messages st)) = true ↔ ∀ id, ¬ own_chat_call w id)
  ∧ Nat.odd (length (ChatInterface.messages st)) = negb (ChatInterface.loading st)
  ∧ (∀ id ev s,
       settles ev = Some (id, s) → own_chat_call w id →
       match s with
       | Rejected _ =>
           ∃ w', dispatch w ev = Some w'
                 ∧ view w' = ChatView (answered st ChatInterface.apology)
       | Fulfilled r =>
           match get (data r) (lit "response") with
           | Some text =>
               if renderable text
               then ∃ w', dispatch w ev = Some w'
                          ∧ view w' = ChatView (answered st
                               (ChatInterface.mkMessage ChatInterface.assistant text))
               else dispatch w ev = None
           | None => dispatch w ev = None
           end
       end)
  ∧ ∀ ev w' st',
      dispatch w ev = Some w' → view w' = ChatView st' →
      (ChatInterface.messages st' = ChatInterface.messages st
       ∧ ChatInterface.loading st' = ChatInterface.loading st)
      ∨ (ev = SubmitChat
         ∧ ChatInterface.loading st = false ∧ ChatInterface.loading st' = true
         ∧ ChatInterface.messages st'
           = ChatInterface.messages st
             ++ [ChatInterface.mkMessage ChatInterface.user
                   (JStr (trim (ChatInterface.input st)))])
      ∨ (∃ id s m,
           settles ev = Some (id, s) ∧ own_chat_call w id
           ∧ ChatInterface.loading st = true ∧ ChatInterface.loading st' = false
           ∧ ChatInterface.messages st' = ChatInterface.messages st ++ [m]
           ∧ match s with
             | Fulfilled r => ∃ text, get (data r) (lit "response") = Some text
                                ∧ renderable text = true
                                ∧ m = ChatInterface.mkMessage ChatInterface.assistant text
             | Rejected _ => m = ChatInterface.apology
             end).
Proof.
  intros Hr Hv. destruct (page_invariant w Hr) as [Hchat _].
  pose proof (result_invariant w Hr) as Hres.
  split; [by apply (inv_greeting _ Hchat)|].
  split; [by apply (inv_alternates _ Hchat)|].
  split.
  { rewrite (inv_parity _ Hchat st Hv). split.
    - intros Hl id. apply (inv_idle _ Hchat st Hv). by destruct (ChatInterface.loading st).
    - intros Hnone. destruct (ChatInterface.loading st) eqn:El; [|done].
      destruct (inv_busy _ Hchat st Hv El) as [id Hid]. by destruct (Hnone id). }
  split; [by apply (inv_parity _ Hchat)|].
  split.
  { intros id ev s Hev [result Hp].
    assert (Hd : dispatch w ev = settle id s w).
    { destruct ev; simpl in Hev; try done; by injection Hev as <- <-. }
    rewrite Hd. unfold settle. rewrite Hp. unfold with_chat.
    destruct s as [r|e]; simpl; rewrite Hv, decide_True by done.
    - unfold ChatInterface.on_fulfilled. rewrite (Hres _ _ _ Hp r).
      destruct (get (data r) (lit "response")) as [text|]; simpl; [|done].
      destruct (renderable text); simpl; [|done]. by eexists.
    - by eexists. }
  intros ev w' st' Hd Hv'.
  assert (Hsettle : ∀ id s, settles ev = Some (id, s) → settle id s w = Some w' →
            (ChatInterface.messages st' = ChatInterface.messages st
             ∧ ChatInterface.loading st' = ChatInterface.loading st)
            ∨ (ev = SubmitChat
               ∧ ChatInterface.loading st = false ∧ ChatInterface.loading st' = true
               ∧ ChatInterface.messages st'
                 = ChatInterface.messages st
                   ++ [ChatInterface.mkMessage ChatInterface.user
                         (JStr (trim (ChatInterface.input st)))])
            ∨ (∃ id s m,
                 settles ev = Some (id, s) ∧ own_chat_call w id
                 ∧ ChatInterface.loading st = true ∧ ChatInterface.loading st' = false
                 ∧ ChatInterface.messages st' = ChatInterface.messages st ++ [m]
                 ∧ match s with
                   | Fulfilled r => ∃ text, get (data r) (lit "response") = Some text
                        ∧ renderable text = true
                        ∧ m = ChatInterface.mkMessage ChatInterface.assistant text
                   | Rejected _ => m = ChatInterface.apology
                   end)).
  { intros id s Hev Hs.
    destruct (settle_chat_view _ _ _ _ _ _ Hres Hchat Hs Hv Hv')
      as [->|(Hown & El & El' & m & Hm & Hkind)]; [by left|].
    right. right. by exists id, s, m. }
  destruct ev; simpl in Hd; try (by eapply Hsettle); rewrite ?Hv in Hd.
  - left. injection Hd as Hd; subst w'. same_view Hv Hv'.
  - left. injection Hd as Hd; subst w'. same_view Hv Hv'.
  - left. destruct (intervals w !! id) as [[owner n]|].
    + destruct (ResearchForm.interval_callback n) as [[s|] n']; injection Hd as Hd; subst w'.
      * rewrite with_form_chat_view with (st:=st) in Hv' by done. same_view Hv Hv'.
      * same_view Hv Hv'.
    + injection Hd as Hd; subst w'. same_view Hv Hv'.
  - left. destruct (timeouts w !! id) as [[c response]|].
    + destruct (get response (lit "viz_data"));
      [destruct (App.renders _); [|done]|]; injection Hd as Hd; subst w'.
      * unfold set_app in Hv'. same_view Hv Hv'.
      * same_view Hv Hv'.
    + injection Hd as Hd; subst w'. same_view Hv Hv'.
  - left. destruct (ChatInterface.loading st) eqn:El; injection Hd as Hd; subst w';
      same_view Hv Hv'.
  - left. case_decide.
    + destruct (ChatInterface.suggestions !! i); injection Hd as Hd; subst w'; same_view Hv Hv'.
    + injection Hd as Hd; subst w'. same_view Hv Hv'.
  - unfold ChatInterface.handleSubmit in Hd.
    destruct (trim (ChatInterface.input st)) as [|c0 p0] eqn:Et.
    { left. injection Hd as Hd; subst w'. same_view Hv Hv'. }
    destruct (ChatInterface.loading st) eqn:El.
    { left. injection Hd as Hd; subst w'. rewrite <- El. same_view Hv Hv'. }
    right. left. injection Hd as Hd; subst w'. same_view Hv Hv'.
  - destruct (App.currentCompany (app w)); injection Hd as Hd; subst w'.
    + left. same_view Hv Hv'.
    + unfold set_app in Hv'. same_view Hv Hv'.
Qed.

Lemma transcript_alternates_witness :
  reachable (world_after asking)
  ∧ ∃ w', dispatch (world_after asking) (NetworkError 1) = Some w'
          ∧ view w' = ChatView (answered (chat_state (world_after asking))
                                  ChatInterface.apology).
Proof.
  assert (Hr : reachable (world_after asking)).
  { exists asking. vm_compute. reflexivity. }
  split; [exact Hr|].
  refine (proj1 (proj2 (proj2 (proj2 (proj2
            (transcript_alternates (world_after asking) (chat_state (world_after asking))
               Hr _)))))
          1 (NetworkError 1) (Rejected (mkAxiosError None)) _ _).
  - vm_compute. reflexivity.
  - reflexivity.
  - exists (λ response, data response). vm_compute. reflexivity.
Defined.

(** C8, counterexample: between a submission and its reply the list holds
    the greeting and the user's message. *)
Lemma transcript_even_while_waiting :
  length (ChatInterface.messages (chat_state (world_after asking))) = 2
  ∧ ChatInterface.loading (chat_state (world_after asking)) = true
  ∧ ¬ transcript_always_odd.
Proof.
  split; [vm_compute; reflexivity|]. split; [vm_compute; reflexivity|].
  intros H.
  specialize (H (world_after asking) (chat_state (world_after asking))).
  assert (Hr : reachable (world_after asking)).
  { exists asking. vm_compute. reflexivity. }
  specialize (H Hr). vm_compute in H. specialize (H eq_refl). discriminate.
Qed.

(** ** Namespace isolation of the specified back end *)

Section Isolation.

Context {Vec : Type}.
Variable embed : js_string → option Vec.
Variable similarity : Vec → Vec → Z.
Variable top_k : nat.

Implicit Types store : gmap js_string (gmap js_string (Backend.Document (Vec:=Vec))).

Lemma partitioned_empty : Backend.partitioned (Vec:=Vec) ∅.
Proof. intros company collection key d. by rewrite lookup_empty. Qed.

Lemma partitioned_index_one company store d :
  Backend.partitioned store → Backend.partitioned (Backend.index_one embed company store d).
Proof.
  intros Hp. unfold Backend.index_one. destruct (embed _) as [v|]; [|done].
  intros c collection key doc. rewrite lookup_insert. case_decide as Hc.
  - subst c. intros [= <-]. rewrite lookup_insert. case_decide.
    + by intros [= <-].
    + destruct (store !! company) as [coll|] eqn:E; simpl.
      * by apply (Hp company coll key doc).
      * by rewrite lookup_empty.
  - apply Hp.
Qed.

Lemma partitioned_index company docs store :
  Backend.partitioned store → Backend.partitioned (Backend.index embed company docs store).
Proof.
  unfold Backend.index. revert store.
  induction docs as [|d docs IH]; intros store Hp; simpl; [done|].
  by apply IH, partitioned_index_one.
Qed.

Lemma partitioned_reset company store :
  Backend.partitioned store → Backend.partitioned (Backend.reset company store).
Proof.
  intros Hp c collection key d Hl. unfold Backend.reset in Hl.
  apply lookup_delete_Some in Hl as [_ Hl]. by apply Hp.
Qed.

Lemma partitioned_store_after history : Backend.partitioned (Backend.store_after embed history).
Proof.
  unfold Backend.store_after.
  induction history as [|op history IH] using rev_ind; [apply partitioned_empty|].
  rewrite foldl_app. simpl. destruct op; simpl.
  - by apply partitioned_index.
  - by apply partitioned_reset.
Qed.

Lemma elem_of_insert_by_score q d d' l :
  d' ∈ Backend.insert_by_score similarity q d l → d' = d ∨ d' ∈ l.
Proof.
  induction l as [|a l IH]; simpl.
  - rewrite list_elem_of_singleton. by left.
  - destruct (_ <? _)%Z; rewrite !elem_of_cons; [tauto|].
    intros [->|H]; [tauto|]. destruct (IH H); tauto.
Qed.

Lemma elem_of_rank q d l : d ∈ Backend.rank similarity q l → d ∈ l.
Proof.
  unfold Backend.rank. induction l as [|a l IH]; simpl; [done|].
  intros H. apply elem_of_insert_by_score in H as [->|H]; [by left|].
  right. by apply IH.
Qed.

Lemma retrieve_from_own_collection store company question docs d :
  Backend.retrieve embed similarity top_k store company question = inr docs →
  d ∈ docs → Backend.indexed_under store company d.
Proof.
  unfold Backend.retrieve. destruct (store !! company) as [collection|] eqn:E; [|done].
  destruct (embed question) as [q|]; [|done]. intros [= <-] Hin.
  apply elem_of_take in Hin as (i & Hi & _).
  apply list_elem_of_lookup_2, elem_of_rank in Hi.
  apply list_elem_of_fmap in Hi as ([key d'] & -> & Hin).
  apply elem_of_map_to_list in Hin. by exists collection, key.
Qed.

Lemma index_one_lookup_ne company store d A :
  company ≠ A → Backend.index_one embed company store d !! A = store !! A.
Proof.
  intros Hne. unfold Backend.index_one. destruct (embed _); [|done].
  by rewrite lookup_insert_ne.
Qed.

Lemma index_lookup_ne company docs store A :
  company ≠ A → Backend.index embed company docs store !! A = store !! A.
Proof.
  intros Hne. unfold Backend.index. revert store.
  induction docs as [|d docs IH]; intros store; simpl; [done|].
  by rewrite IH, index_one_lookup_ne.
Qed.

Lemma index_one_lookup_eq A store1 store2 d :
  store1 !! A = store2 !! A →
  Backend.index_one embed A store1 d !! A = Backend.index_one embed A store2 d !! A.
Proof.
  intros H. unfold Backend.index_one. destruct (embed _); [|done].
  by rewrite !lookup_insert_eq, H.
Qed.

Lemma index_lookup_eq A docs store1 store2 :
  store1 !! A = store2 !! A →
  Backend.index embed A docs store1 !! A = Backend.index embed A docs store2 !! A.
Proof.
  unfold Backend.index. revert store1 store2.
  induction docs as [|d docs IH]; intros store1 store2 H; simpl; [done|].
  by apply IH, index_one_lookup_eq.
Qed.

(** An operation run for another company leaves a company's collection as
    it is; one run for the company itself reads nothing but that
    collection. *)
Lemma apply_op_lookup_ne A op store :
  Backend.company_of op ≠ A → Backend.apply_op embed store op !! A = store !! A.
Proof.
  destruct op as [company docs|company]; simpl; intros Hne.
  - by apply index_lookup_ne.
  - unfold Backend.reset. by rewrite lookup_delete_ne.
Qed.

Lemma apply_op_lookup_eq A op store1 store2 :
  Backend.company_of op = A → store1 !! A = store2 !! A →
  Backend.apply_op embed store1 op !! A = Backend.apply_op embed store2 op !! A.
Proof.
  destruct op as [company docs|company]; simpl; intros -> H.
  - by apply index_lookup_eq.
  - unfold Backend.reset. by rewrite !lookup_delete_eq.
Qed.

Lemma store_after_own A history :
  Backend.store_after embed history !! A
  = Backend.store_after embed (Backend.history_of A history) !! A.
Proof.
  unfold Backend.store_after, Backend.history_of.
  induction history as [|op history IH] using rev_ind; [done|].
  rewrite filter_app, !foldl_app. simpl.
  rewrite filter_cons, filter_nil. case_decide as Hop.
  - simpl. by apply apply_op_lookup_eq.
  - simpl. by rewrite apply_op_lookup_ne.
Qed.

Lemma retrieve_reads_own_collection store1 store2 A question :
  store1 !! A = store2 !! A →
  Backend.retrieve embed similarity top_k store1 A question
  = Backend.retrieve embed similarity top_k store2 A question.
Proof. unfold Backend.retrieve. by intros ->. Qed.

(** Every stored Document is the stamped copy of a cleaned document of a
    research run of the company whose collection holds it. *)
Lemma stems_from_mono history history' company d :
  history ⊆ history' →
  Backend.stems_from embed history company d → Backend.stems_from embed history' company d.
Proof.
  intros Hsub (batch & cd & v & Hin & Hcd & Hv & Hd).
  exists batch, cd, v. repeat split; try done. by apply Hsub.
Qed.

Lemma index_stems history company batch docs store :
  Backend.Index company batch ∈ history → docs ⊆ batch →
  (∀ c d, Backend.indexed_under store c d → Backend.stems_from embed history c d) →
  ∀ c d, Backend.indexed_under (Backend.index embed company docs store) c d →
         Backend.stems_from embed history c d.
Proof.
  intros Hin. unfold Backend.index. revert store.
  induction docs as [|cd docs IH]; intros store Hsub Hs; simpl; [done|].
  apply IH; [set_solver|]. clear IH.
  intros c d (collection & key & Hc & Hd). unfold Backend.index_one in Hc.
  destruct (embed (Backend.clean_text cd)) as [v|] eqn:Hv.
  - rewrite lookup_insert in Hc. case_decide as Hcompany.
    + subst c. injection Hc as <-. rewrite lookup_insert in Hd. case_decide.
      * injection Hd as <-. exists batch, cd, v. repeat split; try done. set_solver.
      * destruct (store !! company) as [coll|] eqn:E; simpl in Hd.
        -- apply Hs. by exists coll, key.
        -- by rewrite lookup_empty in Hd.
    + apply Hs. by exists collection, key.
  - apply Hs. by exists collection, key.
Qed.

Lemma stored_stems_from history c d :
  Backend.indexed_under (Backend.store_after embed history) c d →
  Backend.stems_from embed history c d.
Proof.
  unfold Backend.store_after. revert c d.
  induction history as [|op history IH] using rev_ind.
  - intros c d (collection & key & Hc & _). simpl in Hc. by rewrite lookup_empty in Hc.
  - rewrite foldl_app. simpl. destruct op as [company batch|company]; simpl.
    + apply (index_stems _ company batch); [set_solver|done|].
      intros c d H. apply (stems_from_mono history); [set_solver|]. by apply IH.
    + intros c d (collection & key & Hc & Hd). unfold Backend.reset in Hc.
      apply lookup_delete_Some in Hc as [_ Hc].
      apply (stems_from_mono history); [set_solver|].
      apply IH. by exists collection, key.
Qed.

(** C5: the retrieval of a chat question for company [A] answers as if
    only [A]'s own research runs and resets had ever happened, whatever
    was run for other companies before, between or after them; and every
    Document it returns sits in [A]'s collection, is the stamped copy of a
    cleaned document of one of [A]'s own research runs, and is indexed
    under no other company [B]. *)
Theorem namespace_isolation (history : list Backend.Op) (A question : js_string) :
  Backend.retrieve embed similarity top_k (Backend.store_after embed history) A question
  = Backend.retrieve embed similarity top_k
      (Backend.store_after embed (Backend.history_of A history)) A question
  ∧ ∀ docs d,
      Backend.retrieve embed similarity top_k (Backend.store_after embed history) A question
        = inr docs →
      d ∈ docs →
      Backend.indexed_under (Backend.store_after embed history) A d
      ∧ Backend.company_id d = A
      ∧ Backend.stems_from embed history A d
      ∧ ∀ B, A ≠ B → ¬ Backend.indexed_under (Backend.store_after embed history) B d.
Proof.
  split; [apply retrieve_reads_own_collection, store_after_own|].
  intros docs d Hr Hin.
  pose proof (retrieve_from_own_collection _ _ _ _ _ Hr Hin) as HA.
  pose proof (partitioned_store_after history) as Hp.
  assert (Hid : Backend.company_id d = A).
  { destruct HA as (collA & keyA & HA & HdA). by apply (Hp _ _ _ _ HA HdA). }
  repeat split; try done.
  - by apply stored_stems_from.
  - intros B Hne (collB & keyB & HB & HdB). apply Hne.
    rewrite <- Hid. by apply (Hp _ _ _ _ HB HdB).
Qed.

End Isolation.

(** The same page indexed for two companies: the question asked about the
    first retrieves its own copy, as if the other company had never been
    researched, and that copy is not in the other company's collection. *)
Lemma namespace_isolation_witness :
  Backend.retrieve toy_embed toy_similarity 5 (Backend.store_after toy_embed toy_history)
    acme (lit "what about anvils")
  = inr [anvil_of acme]
  ∧ Backend.history_of acme toy_history = [Backend.Index acme [anvil_page]]
  ∧ Backend.stems_from toy_embed toy_history acme (anvil_of acme)
  ∧ ¬ Backend.indexed_under (Backend.store_after toy_embed toy_history) globex (anvil_of acme).
Proof.
  destruct (namespace_isolation toy_embed toy_similarity 5 toy_history acme
              (lit "what about anvils")) as [_ H].
  assert (Hr : Backend.retrieve toy_embed toy_similarity 5
                 (Backend.store_after toy_embed toy_history) acme (lit "what about anvils")
               = inr [anvil_of acme]) by (vm_compute; reflexivity).
  destruct (H [anvil_of acme] (anvil_of acme) Hr) as (_ & _ & Hs & Hn).
  { apply list_elem_of_singleton. reflexivity. }
  split; [exact Hr|]. split; [vm_compute; reflexivity|]. split; [exact Hs|].
  apply Hn. discriminate.
Defined.

(** * Further properties of the client *)

(** ** More on [trim] *)

Lemma blank_app l1 l2 : blank (l1 ++ l2) = blank l1 && blank l2.
Proof. apply forallb_app. Qed.

Lemma blank_reverse l : blank (reverse l) = blank l.
Proof.
  induction l as [|a l IH]; [done|].
  rewrite reverse_cons, blank_app, IH. simpl. rewrite andb_true_r. apply andb_comm.
Qed.

Lemma trimStart_split s : ∃ l, s = l ++ trimStart s ∧ blank l = true.
Proof.
  induction s as [|a s (l & Hs & Hl)]; [by exists []|]. simpl.
  destruct (is_white_space a) eqn:Ha.
  - exists (a :: l). simpl. rewrite Ha, Hl. split; [by f_equal|done].
  - by exists [].
Qed.

Lemma trimEnd_split s : ∃ r, s = trimEnd s ++ r ∧ blank r = true.
Proof.
  unfold trimEnd. destruct (trimStart_split (reverse s)) as (l & Hs & Hl).
  exists (reverse l). rewrite blank_reverse. split; [|done].
  rewrite <- reverse_app, <- Hs. by rewrite reverse_involutive.
Qed.

Lemma trim_split s : ∃ l r, s = l ++ trim s ++ r ∧ blank l = true ∧ blank r = true.
Proof.
  destruct (trimStart_split s) as (l & Hs & Hl).
  destruct (trimEnd_split (trimStart s)) as (r & Ht & Hr).
  exists l, r. unfold trim. by rewrite <- Ht.
Qed.

Lemma trimStart_blank s : trimStart s = [] ↔ blank s = true.
Proof.
  induction s as [|a s IH]; simpl; [done|].
  destruct (is_white_space a); simpl; [done|]. split; discriminate.
Qed.

Lemma trim_blank_iff s : trim s = [] ↔ blank s = true.
Proof.
  unfold trim, trimEnd. split.
  - intros H. apply (f_equal reverse) in H. rewrite reverse_involutive in H. simpl in H.
    apply trimStart_blank in H. rewrite blank_reverse in H.
    destruct (trimStart s) as [|c t] eqn:E; [by apply trimStart_blank|].
    apply trimStart_head in E. simpl in H. by rewrite E in H.
  - intros H. apply trimStart_blank in H. by rewrite H.
Qed.

Lemma trim_ends s c t :
  trim s = c :: t →
  is_white_space c = false
  ∧ ∃ d, last (c :: t) = Some d ∧ is_white_space d = false.
Proof.
  unfold trim, trimEnd. intros H.
  destruct (trimStart (reverse (trimStart s))) as [|d u] eqn:E; [done|].
  apply trimStart_head in E as Hd. split.
  - destruct (trimEnd_split (trimStart s)) as (r & Ht & _).
    unfold trimEnd in Ht. rewrite E, H in Ht. simpl in Ht.
    by apply trimStart_head in Ht.
  - exists d. split; [|done]. rewrite <- H, reverse_cons. apply last_snoc.
Qed.

(** ** What one event can change *)

Lemma with_form_frame owner g w :
  app (with_form owner g w) = app w ∧ inst (with_form owner g w) = inst w
  ∧ pending (with_form owner g w) = pending w
  ∧ intervals (with_form owner g w) = intervals w
  ∧ timeouts (with_form owner g w) = timeouts w
  ∧ (view (with_form owner g w) = view w
     ∨ ∃ f, view w = ResearchView f ∧ inst w = owner
            ∧ view (with_form owner g w) = ResearchView (g f)).
Proof.
  unfold with_form. destruct (view w) as [f|] eqn:E; [|by rewrite E; auto 10].
  case_decide; [|by rewrite E; auto 10].
  simpl. repeat split; try done. right. by exists f.
Qed.

Lemma with_chat_frame owner g w w' :
  with_chat owner g w = Some w' →
  app w' = app w ∧ inst w' = inst w ∧ pending w' = pending w
  ∧ intervals w' = intervals w ∧ timeouts w' = timeouts w
  ∧ (view w' = view w ∨ ∃ st st', view w = ChatView st ∧ view w' = ChatView st').
Proof.
  unfold with_chat. destruct (view w) as [|st] eqn:E; [intros [= <-]; by rewrite E; auto 10|].
  case_decide; [|intros [= <-]; by rewrite E; auto 10].
  destruct (g st) as [st'|]; simpl; [|done]. intros [= <-]. simpl.
  repeat split; try done. right. by exists st, st'.
Qed.

(** A pending timeout was pending before, or was registered by the
    fulfilment of a research call for the same company. *)
Lemma timeouts_step w ev w' :
  dispatch w ev = Some w' →
  ∀ id c response, timeouts w' !! id = Some (c, response) →
    timeouts w !! id = Some (c, response)
    ∨ ∃ owner result, pending w !! id = Some (PendingResearch owner c result).
Proof.
  intros Hd id' c' response'. destruct ev; simpl in Hd.
  - destruct (view w); [destruct (ResearchForm.loading f)|]; injection Hd as <-; tauto.
  - destruct (view w) as [f|]; [|injection Hd as <-; tauto].
    destruct (ResearchForm.handleSubmit f) as [[st' call]|]; injection Hd as <-; tauto.
  - destruct (intervals w !! id) as [[owner n]|]; [|injection Hd as <-; tauto].
    destruct (ResearchForm.interval_callback n) as [[s|] n']; injection Hd as <-; [|tauto].
    match goal with |- context [with_form ?o ?g ?w1] =>
      destruct (with_form_frame o g w1) as (_ & _ & _ & _ & -> & _) end. tauto.
  - destruct (timeouts w !! id) as [[c response]|]; [|injection Hd as <-; tauto].
    destruct (get response (lit "viz_data"));
      [destruct (App.renders _); [|done]|]; injection Hd as <-.
    + match goal with |- context [set_app ?a ?w1] =>
        destruct (set_app_net a w1) as (_ & _ & -> & _) end.
      simpl. intros Hl. apply lookup_delete_Some in Hl. tauto.
    + simpl. intros Hl. apply lookup_delete_Some in Hl. tauto.
  - unfold settle in Hd. destruct (pending w !! id) as [p|] eqn:Ep; [|injection Hd as <-; tauto].
    destruct p as [owner c result|owner result].
    + destruct (axios_settle r); research_settled Hd;
        match goal with |- context [with_form ?o ?g ?w1] =>
          destruct (with_form_frame o g w1) as (_ & _ & _ & _ & -> & _) end; simpl; [|tauto].
      rewrite lookup_insert. case_decide; [|tauto].
      intros [= <- <-]. subst id'. right. by eexists _, _.
    + destruct (axios_settle r);
        apply with_chat_frame in Hd as (_ & _ & _ & _ & -> & _); tauto.
  - unfold settle in Hd. destruct (pending w !! id) as [p|] eqn:Ep; [|injection Hd as <-; tauto].
    destruct p as [owner c result|owner result].
    + research_settled Hd.
      match goal with |- context [with_form ?o ?g ?w1] =>
        destruct (with_form_frame o g w1) as (_ & _ & _ & _ & -> & _) end. tauto.
    + apply with_chat_frame in Hd as (_ & _ & _ & _ & -> & _); tauto.
  - destruct (view w) as [|st]; [|destruct (ChatInterface.loading st)];
      injection Hd as <-; tauto.
  - destruct (view w) as [|st]; [injection Hd as <-; tauto|].
    case_decide; [|injection Hd as <-; tauto].
    destruct (ChatInterface.suggestions !! i); injection Hd as <-; tauto.
  - destruct (view w) as [|st]; [injection Hd as <-; tauto|].
    destruct (ChatInterface.handleSubmit _ st) as [[st' call]|]; injection Hd as <-; tauto.
  - destruct (App.currentCompany (app w)); injection Hd as <-; [tauto|].
    match goal with |- context [set_app ?a ?w1] =>
      destruct (set_app_net a w1) as (_ & _ & -> & _) end. tauto.
Qed.

(** A research call in flight was in flight before, or was started by a
    submission of a name that is not blank. *)
Lemma pending_research_step w ev w' :
  dispatch w ev = Some w' →
  ∀ id owner c result, pending w' !! id = Some (PendingResearch owner c result) →
    pending w !! id = Some (PendingResearch owner c result) ∨ trim c ≠ [].
Proof.
  intros Hd id' owner' c' result'. destruct ev; simpl in Hd.
  - destruct (view w); [destruct (ResearchForm.loading f)|]; injection Hd as <-; tauto.
  - destruct (view w) as [f|]; [|injection Hd as <-; tauto].
    unfold ResearchForm.handleSubmit in Hd.
    destruct (trim (ResearchForm.companyName f)) eqn:E; injection Hd as <-; [tauto|].
    simpl. rewrite lookup_insert. case_decide; [|tauto].
    intros [= <- <- <-]. right. by rewrite E.
  - destruct (intervals w !! id) as [[owner n]|]; [|injection Hd as <-; tauto].
    destruct (ResearchForm.interval_callback n) as [[s|] n']; injection Hd as <-; [|tauto].
    match goal with |- context [with_form ?o ?g ?w1] =>
      destruct (with_form_frame o g w1) as (_ & _ & -> & _) end. tauto.
  - destruct (timeouts w !! id) as [[c response]|]; [|injection Hd as <-; tauto].
    destruct (get response (lit "viz_data"));
      [destruct (App.renders _); [|done]|]; injection Hd as <-; [|tauto].
    match goal with |- context [set_app ?a ?w1] =>
      destruct (set_app_net a w1) as (_ & -> & _) end. tauto.
  - apply settle_net in Hd as (_ & [->| ->] & _); [tauto|].
    intros Hl. apply lookup_delete_Some in Hl. tauto.
  - apply settle_net in Hd as (_ & [->| ->] & _); [tauto|].
    intros Hl. apply lookup_delete_Some in Hl. tauto.
  - destruct (view w) as [|st]; [|destruct (ChatInterface.loading st)];
      injection Hd as <-; tauto.
  - destruct (view w) as [|st]; [injection Hd as <-; tauto|].
    case_decide; [|injection Hd as <-; tauto].
    destruct (ChatInterface.suggestions !! i); injection Hd as <-; tauto.
  - destruct (view w) as [|st]; [injection Hd as <-; tauto|].
    destruct (ChatInterface.handleSubmit _ st) as [[st' call]|]; injection Hd as <-; [|tauto].
    simpl. rewrite lookup_insert. case_decide; [done|tauto].
  - destruct (App.currentCompany (app w)); injection Hd as <-; [tauto|].
    match goal with |- context [set_app ?a ?w1] =>
      destruct (set_app_net a w1) as (_ & -> & _) end. tauto.
Qed.

(** ** Two more invariants *)

Lemma app_changes w ev w' :
  dispatch w ev = Some w' →
  app w' = app w
  ∨ app w' = App.handleStartNew (app w)
  ∨ ∃ id c response viz_data,
      timeouts w !! id = Some (c, response)
      ∧ app w' = App.handleResearchComplete c viz_data (app w).
Proof.
  intros Hd. destruct (app_step _ _ _ Hd) as [H|[H|(id & c & response & d & _ & Ht & _ & Ha)]].
  - by left.
  - destruct ev; simpl in Hd;
      try (apply settle_net in Hd; tauto).
    + destruct (view w); [destruct (ResearchForm.loading f)|]; injection Hd as <-; tauto.
    + destruct (view w) as [f|]; [|injection Hd as <-; tauto].
      destruct (ResearchForm.handleSubmit f) as [[st' call]|]; injection Hd as <-; tauto.
    + destruct (intervals w !! id) as [[owner n]|]; [|injection Hd as <-; tauto].
      destruct (ResearchForm.interval_callback n) as [[s|] n']; injection Hd as <-; [|tauto].
      match goal with |- context [with_form ?o ?g ?w1] =>
        destruct (with_form_frame o g w1) as (-> & _) end. tauto.
    + destruct (timeouts w !! id) as [[c response]|]; [|injection Hd as <-; tauto].
      destruct (get response (lit "viz_data"));
      [destruct (App.renders _); [|done]|]; injection Hd as Hd; subst w'; [|tauto].
      match type of H with context [set_app ?a ?w1] =>
        destruct (set_app_net a w1) as (Ha & _) end.
      rewrite Ha in H. done.
    + destruct (view w) as [|st]; [|destruct (ChatInterface.loading st)];
        injection Hd as <-; tauto.
    + destruct (view w) as [|st]; [injection Hd as <-; tauto|].
      case_decide; [|injection Hd as <-; tauto].
      destruct (ChatInterface.suggestions !! i); injection Hd as <-; tauto.
    + destruct (view w) as [|st]; [injection Hd as <-; tauto|].
      destruct (ChatInterface.handleSubmit _ st) as [[st' call]|]; injection Hd as <-; tauto.
    + destruct (App.currentCompany (app w)); injection Hd as <-; [tauto|].
      match goal with |- context [set_app ?a ?w1] =>
        destruct (set_app_net a w1) as (-> & _) end. tauto.
  - right. right. by exists id, c, response, d.
Qed.

Lemma company_inv_init : company_inv init.
Proof. split; simpl; done. Qed.

Lemma company_inv_step w ev w' : company_inv w → dispatch w ev = Some w' → company_inv w'.
Proof.
  intros [Hp Ht Hs] Hd.
  assert (Hp' : ∀ id owner c result,
            pending w' !! id = Some (PendingResearch owner c result) → c ≠ []).
  { intros id owner c result Hl.
    destruct (pending_research_step _ _ _ Hd _ _ _ _ Hl) as [H|H]; [by eapply Hp|].
    by intros ->. }
  split; [done| |].
  - intros id c response Hl.
    destruct (timeouts_step _ _ _ Hd _ _ _ Hl) as [H|(owner & result & H)];
      [by eapply Ht|by eapply Hp].
  - destruct (app_changes _ _ _ Hd) as [->|[->|(id & c & response & d & Hl & ->)]];
      [done|done|].
    simpl. split; [done|]. intros _. by eapply Ht.
Qed.

Lemma company_invariant w : reachable w → company_inv w.
Proof.
  apply (reachable_invariant company_inv); [apply company_inv_init|].
  intros w0 ev w1 _. apply company_inv_step.
Qed.

Lemma on_rejected_loading e st st' :
  ResearchForm.on_rejected e st = Some st' → ResearchForm.loading st' = false.
Proof.
  unfold ResearchForm.on_rejected. destruct (renderable _); [|done]. by intros [= <-].
Qed.

Lemma form_inv_step w ev w' : form_inv w → dispatch w ev = Some w' → form_inv w'.
Proof.
  intros Hinv Hd f' Hv' Hl'.
  assert (Hrejected : ∀ owner e w1,
            view w1 = view w →
            with_form_opt owner (ResearchForm.on_rejected e) w1 = Some w' →
            ResearchForm.progress f' ∈ stage_strings).
  { intros owner e w1 Hw1 Hw.
    apply with_form_opt_Some in Hw as (x & -> & [Hsame|(st0 & Hst0 & <- & Hrej)]).
    - rewrite Hsame in Hv'. apply Hinv; [congruence|done].
    - apply on_rejected_loading in Hrej. unfold with_form in Hv'.
      rewrite Hst0, decide_True in Hv' by done. simpl in Hv'.
      injection Hv' as <-. congruence. }
  assert (Hform : ∀ owner g w1,
            view w1 = view w →
            (∀ f, ResearchForm.loading (g f) = true → ResearchForm.progress (g f) ∈ stage_strings) →
            view (with_form owner g w1) = ResearchView f' →
            ResearchForm.progress f' ∈ stage_strings).
  { intros owner g w1 Hw1 Hg Hv.
    destruct (with_form_frame owner g w1) as (_ & _ & _ & _ & _ & [E|(f & Ef & _ & E)]).
    - apply Hinv; [congruence|done].
    - rewrite E in Hv. injection Hv as <-. by apply Hg. }
  destruct ev; simpl in Hd.
  - destruct (view w) as [f|] eqn:E; [destruct (ResearchForm.loading f) eqn:El|];
      injection Hd as Hd; subst w'; simpl in Hv'.
    + apply Hinv; congruence.
    + injection Hv' as <-. simpl in Hl'. congruence.
    + congruence.
  - destruct (view w) as [f|] eqn:E; [|injection Hd as Hd; subst w'; congruence].
    unfold ResearchForm.handleSubmit in Hd.
    destruct (trim (ResearchForm.companyName f)); injection Hd as Hd; subst w'.
    + apply Hinv; congruence.
    + simpl in Hv'. injection Hv' as <-. simpl. apply list_elem_of_here.
  - destruct (intervals w !! id) as [[owner n]|]; [|injection Hd as Hd; subst w'; by apply Hinv].
    unfold ResearchForm.interval_callback in Hd.
    destruct (ResearchForm.simulateProgress !! n) as [s|] eqn:Es; injection Hd as Hd; subst w'.
    + eapply Hform; [| |exact Hv']; [done|].
      intros f _. simpl. apply elem_of_cons. right. by eapply list_elem_of_lookup_2.
    + by apply Hinv.
  - destruct (timeouts w !! id) as [[c response]|]; [|injection Hd as Hd; subst w'; by apply Hinv].
    destruct (get response (lit "viz_data"));
      [destruct (App.renders _); [|done]|]; injection Hd as Hd; subst w'.
    + unfold set_app in Hv'. simpl in Hv'. destruct (view w) eqn:E; simpl in Hv'; [done|].
      congruence.
    + by apply Hinv.
  - unfold settle in Hd. destruct (pending w !! id) as [p|]; [|injection Hd as Hd; subst w'; by apply Hinv].
    destruct p as [owner c result|owner result].
    + destruct (axios_settle r); [|by eapply Hrejected; [|exact Hd]].
      injection Hd as Hd; subst w'.
      (eapply Hform; [| |exact Hv']; [done|]); intros f; simpl; done.
    + destruct (axios_settle r);
        apply with_chat_frame in Hd as (_ & _ & _ & _ & _ & [E|(st & st' & _ & E)]);
        simpl in E; try congruence; apply Hinv; congruence.
  - unfold settle in Hd. destruct (pending w !! id) as [p|]; [|injection Hd as Hd; subst w'; by apply Hinv].
    destruct p as [owner c result|owner result].
    + by eapply Hrejected; [|exact Hd].
    + apply with_chat_frame in Hd as (_ & _ & _ & _ & _ & [E|(st & st' & _ & E)]);
        simpl in E; try congruence; apply Hinv; congruence.
  - destruct (view w) as [|st] eqn:E; [|destruct (ChatInterface.loading st)];
      injection Hd as Hd; subst w'; simpl in Hv'; try congruence. apply Hinv; congruence.
  - destruct (view w) as [|st] eqn:E; [injection Hd as Hd; subst w'; apply Hinv; congruence|].
    case_decide; [|injection Hd as Hd; subst w'; congruence].
    destruct (ChatInterface.suggestions !! i); injection Hd as Hd; subst w'; simpl in Hv';
      congruence.
  - destruct (view w) as [|st] eqn:E; [injection Hd as Hd; subst w'; apply Hinv; congruence|].
    destruct (ChatInterface.handleSubmit _ st) as [[st' call]|];
      injection Hd as Hd; subst w'; simpl in Hv'; congruence.
  - destruct (App.currentCompany (app w)); injection Hd as Hd; subst w'; [by apply Hinv|].
    unfold set_app in Hv'. simpl in Hv'. destruct (view w) eqn:E; simpl in Hv'.
    + apply Hinv; congruence.
    + injection Hv' as <-. done.
Qed.

Lemma form_invariant w : reachable w → form_inv w.
Proof.
  apply (reachable_invariant form_inv).
  - intros f [= <-]. done.
  - intros w0 ev w1 _. apply form_inv_step.
Qed.

(** ** The two forms *)

(** The research form's [handleSubmit] returns early exactly when the
    company name is blank (empty or white space only); then the page is
    left as it is.  Otherwise it posts the name to [/research/]. *)
Theorem research_submit_blocked_iff_blank (w : World) (f : ResearchForm.state) :
  view w = ResearchView f →
  (ResearchForm.handleSubmit f = None ↔ blank (ResearchForm.companyName f) = true)
  ∧ (blank (ResearchForm.companyName f) = true → dispatch w SubmitResearch = Some w)
  ∧ (blank (ResearchForm.companyName f) = false →
       ∃ w', dispatch w SubmitResearch = Some w'
             ∧ log w' = Sent (next_id w)
                          (mkRequest POST (lit "/research/")
                             (JObj [(lit "company_name", JStr (ResearchForm.companyName f))]))
                        :: log w).
Proof.
  intros Hv.
  assert (Hiff : ResearchForm.handleSubmit f = None ↔ blank (ResearchForm.companyName f) = true).
  { rewrite <- trim_blank_iff. unfold ResearchForm.handleSubmit.
    destruct (trim (ResearchForm.companyName f)); split; done. }
  split; [done|]. split.
  - intros Hb. apply Hiff in Hb. simpl. by rewrite Hv, Hb.
  - intros Hb. simpl. rewrite Hv. unfold ResearchForm.handleSubmit.
    destruct (trim (ResearchForm.companyName f)) eqn:E.
    + apply trim_blank_iff in E. congruence.
    + by eexists.
Qed.

Lemma research_submit_blocked_iff_blank_witness :
  dispatch (world_after [ChangeCompanyName (lit "  ")]) SubmitResearch
  = Some (world_after [ChangeCompanyName (lit "  ")]).
Proof.
  apply (proj1 (proj2 (research_submit_blocked_iff_blank
            (world_after [ChangeCompanyName (lit "  ")])
            (ResearchForm.mkState (lit "  ") false (JStr []) []) eq_refl))).
  reflexivity.
Defined.

(** The chat form's [handleSubmit] returns early, the page staying as it
    is, exactly when the input is blank or a call of the mounted
    conversation is in flight.  A call left behind by an earlier
    conversation does not block: with a visible character in the input and
    no call of its own in flight, the conversation starts a call, whatever
    else is pending. *)
Theorem chat_submit_blocked_iff (w : World) (st : ChatInterface.state) :
  reachable w → view w = ChatView st →
  (ChatInterface.handleSubmit (App.currentCompany (app w)) st = None
   ↔ blank (ChatInterface.input st) = true ∨ ∃ id, own_chat_call w id)
  ∧ (dispatch w SubmitChat = Some w
     ↔ blank (ChatInterface.input st) = true ∨ ∃ id, own_chat_call w id)
  ∧ (blank (ChatInterface.input st) = false → (∀ id, ¬ own_chat_call w id) →
     ∃ w' result,
       dispatch w SubmitChat = Some w'
       ∧ pending w' = <[next_id w := PendingChat (inst w) result]> (pending w)
       ∧ own_chat_call w' (next_id w)
       ∧ ∃ request, log w' = Sent (next_id w) request :: log w).
Proof.
  intros Hr Hv. destruct (page_invariant w Hr) as [Hchat _].
  assert (Hbusy : ChatInterface.loading st = true ↔ ∃ id, own_chat_call w id).
  { split; [by apply (inv_busy _ Hchat)|].
    intros [id Hid]. destruct (ChatInterface.loading st) eqn:El; [done|].
    by destruct (inv_idle _ Hchat st Hv El id). }
  assert (Hguard : ChatInterface.handleSubmit (App.currentCompany (app w)) st = None
                   ↔ blank (ChatInterface.input st) = true ∨ ∃ id, own_chat_call w id).
  { rewrite <- Hbusy, <- trim_blank_iff. unfold ChatInterface.handleSubmit.
    destruct (trim (ChatInterface.input st)); [by split; [left|]|].
    destruct (ChatInterface.loading st); split; try done; [by right|]. by intros [|]. }
  split; [exact Hguard|]. split.
  - rewrite <- Hguard. simpl. rewrite Hv.
    destruct (ChatInterface.handleSubmit _ st) as [[st' call]|]; [|done].
    split; [|done]. intros H. exfalso.
    injection H as H. apply (f_equal (λ w, length (log w))) in H. simpl in H. lia.
  - intros Hvisible Hnone.
    destruct (ChatInterface.handleSubmit (App.currentCompany (app w)) st)
      as [[st' call]|] eqn:E.
    + exists (mkWorld (app w) (inst w) (ChatView st') (S (next_id w))
                (<[next_id w := PendingChat (inst w) (call_result call)]> (pending w))
                (intervals w) (timeouts w)
                (Sent (next_id w) (call_request call) :: log w)),
             (call_result call).
      split; [simpl; by rewrite Hv, E|]. split; [done|]. split.
      * exists (call_result call). simpl. by rewrite lookup_insert_eq.
      * by eexists.
    + destruct (proj1 Hguard eq_refl) as [Hb|[id Hid]]; [congruence|].
      by destruct (Hnone id).
Qed.

(** With the first conversation's call still unanswered, the second
    conversation sends its question. *)
Lemma chat_submit_blocked_iff_witness :
  pending (world_after returned) !! 1 = Some (PendingChat 1 (λ response, data response))
  ∧ ∃ w', dispatch (world_after returned) SubmitChat = Some w'
          ∧ own_chat_call w' (next_id (world_after returned)).
Proof.
  split; [vm_compute; reflexivity|].
  destruct (chat_submit_blocked_iff (world_after returned)
              (chat_state (world_after returned))) as (_ & _ & Hstarts).
  - exists returned. vm_compute. reflexivity.
  - vm_compute. reflexivity.
  - destruct Hstarts as (w' & result & Hd & _ & Hown & _).
    + vm_compute. reflexivity.
    + intros id [result Hid].
      assert (Hinst : inst (world_after returned) = 3) by (vm_compute; reflexivity).
      assert (Hpending : pending (world_after returned)
                         = {[ 1 := PendingChat 1 (λ response, data response) ]})
        by (vm_compute; reflexivity).
      rewrite Hinst, Hpending in Hid.
      apply lookup_singleton_Some in Hid as [_ Hid]. discriminate Hid.
    + exists w'. split; [exact Hd|exact Hown].
Defined.

(** The prompt of a chat submission is the input without the white space
    at its two ends: the input is white space, the prompt, white space; the
    prompt begins and ends with a visible character; it is also the text
    of the user message, and the input field is emptied. *)
Theorem chat_prompt_is_trimmed_input (company : js_string) (st st' : ChatInterface.state)
    (call : ApiCall) :
  ChatInterface.handleSubmit company st = Some (st', call) →
  ∃ l p r,
    ChatInterface.input st = l ++ p ++ r
    ∧ blank l = true ∧ blank r = true
    ∧ (∃ a, head p = Some a ∧ is_white_space a = false)
    ∧ (∃ z, last p = Some z ∧ is_white_space z = false)
    ∧ get (body (call_request call)) (lit "prompt") = Some (JStr p)
    ∧ ChatInterface.messages st'
      = ChatInterface.messages st ++ [ChatInterface.mkMessage ChatInterface.user (JStr p)]
    ∧ ChatInterface.input st' = [].
Proof.
  unfold ChatInterface.handleSubmit. intros H.
  destruct (trim_split (ChatInterface.input st)) as (l & r & Hs & Hl & Hr).
  destruct (trim (ChatInterface.input st)) as [|c t] eqn:E; [done|].
  destruct (ChatInterface.loading st); [done|]. injection H as <- <-.
  destruct (trim_ends _ _ _ E) as (Hc & d & Hd & Hvis).
  exists l, (c :: t), r. repeat split; try done.
  - by exists c.
  - by exists d.
Qed.

Lemma chat_prompt_is_trimmed_input_witness :
  ∃ l p r,
    lit "  What  do they sell? " = l ++ p ++ r
    ∧ blank l = true ∧ blank r = true
    ∧ get (body (call_request (api.sendChatMessage acme (lit "What  do they sell?"))))
          (lit "prompt") = Some (JStr p).
Proof.
  destruct (chat_prompt_is_trimmed_input acme
              (ChatInterface.mkState [ChatInterface.greeting acme]
                 (lit "  What  do they sell? ") false)
              (ChatInterface.mkState
                 [ChatInterface.greeting acme;
                  ChatInterface.mkMessage ChatInterface.user (JStr (lit "What  do they sell?"))]
                 [] true)
              (api.sendChatMessage acme (lit "What  do they sell?")))
    as (l & p & r & H1 & H2 & H3 & _ & _ & H4 & _).
  - reflexivity.
  - exists l, p, r. repeat split; assumption.
Defined.

(** The error of a failed research call of the mounted form is the [error]
    field of the response body when that is truthy, the default text
    otherwise: it is always truthy.  When React can render it, loading
    ends, the progress is cleared, the typed name is kept and the error box
    shows it; when it cannot (an object), the page is gone. *)
Theorem research_failure_shows_an_error (w : World) (f : ResearchForm.state)
    (id : nat) (c : js_string) (result : Response → JsVal) (ev : Event)
    (e : AxiosError) :
  view w = ResearchView f →
  pending w !! id = Some (PendingResearch (inst w) c result) →
  settles ev = Some (id, Rejected e) →
  ∃ message,
    message
    = match err_response e with
      | Some r =>
          if truthy (get_opt (data r) (lit "error")) then get_opt (data r) (lit "error")
          else JStr (lit "Failed to research company. Please try again.")
      | None => JStr (lit "Failed to research company. Please try again.")
      end
    ∧ truthy message = true
    ∧ if renderable message
      then ∃ w', dispatch w ev = Some w'
                 ∧ view w'
                   = ResearchView
                       (ResearchForm.mkState (ResearchForm.companyName f) false message [])
      else dispatch w ev = None.
Proof.
  intros Hv Hp He.
  assert (Hd : dispatch w ev = settle id (Rejected e) w).
  { destruct ev; simpl in He; try done; injection He as <- He; by rewrite <- He. }
  exists (ResearchForm.error_message e). split; [|split].
  - unfold ResearchForm.error_message, js_or. destruct (err_response e); done.
  - unfold ResearchForm.error_message, js_or.
    match goal with |- truthy (if truthy ?x then _ else _) = true =>
      destruct (truthy x) eqn:E end; done.
  - rewrite Hd. unfold settle. rewrite Hp. unfold with_form_opt. simpl.
    rewrite Hv, decide_True by done. unfold ResearchForm.on_rejected.
    destruct (renderable (ResearchForm.error_message e)); simpl; [|done]. by eexists.
Qed.

Lemma research_failure_shows_an_error_witness :
  ∃ w', dispatch (world_after researching) (HttpReply 0 not_found) = Some w'
        ∧ view w'
          = ResearchView (ResearchForm.mkState acme false
                            (JStr (lit "Please research this company first.")) []).
Proof.
  destruct (research_failure_shows_an_error (world_after researching)
              (ResearchForm.mkState acme true (JStr []) (lit "Initializing AI agents..."))
              0 acme (λ response, data response) (HttpReply 0 not_found)
              (mkAxiosError (Some not_found)))
    as (message & -> & _ & Hshown).
  - vm_compute. reflexivity.
  - vm_compute. reflexivity.
  - vm_compute. reflexivity.
  - exact Hshown.
Defined.

(** ** The research form's timers *)

(** Whatever the progress panel shows is 'Initializing AI agents...' or one
    of the six strings of [simulateProgress]; 'Research complete!' is set
    together with [loading = false] and is never on screen. *)
Theorem progress_on_screen_is_a_stage_string (w : World) (p : js_string) :
  reachable w → progress_on_screen w = Some p →
  p ∈ stage_strings ∧ p ≠ lit "Research complete!".
Proof.
  intros Hr Hp. unfold progress_on_screen, ResearchForm.displayed_progress in Hp.
  destruct (view w) as [f|] eqn:E; [|done].
  destruct (ResearchForm.loading f) eqn:El; [|done].
  pose proof (form_invariant w Hr f E El) as Hin.
  destruct (ResearchForm.progress f) eqn:Ep; [done|]. injection Hp as <-.
  split; [done|]. intros Heq. rewrite Heq in Hin. vm_compute in Hin.
  repeat (apply elem_of_cons in Hin as [Hin|Hin]; [discriminate|]).
  by apply elem_of_nil in Hin.
Qed.

Lemma progress_on_screen_is_a_stage_string_witness :
  lit "Planning data collection strategy..." ∈ stage_strings.
Proof.
  refine (proj1 (progress_on_screen_is_a_stage_string
            (world_after (researching ++ [IntervalTick 0; IntervalTick 0]))
            (lit "Planning data collection strategy...") _ _)).
  - exists (researching ++ [IntervalTick 0; IntervalTick 0]). vm_compute. reflexivity.
  - vm_compute. reflexivity.
Defined.

(** [currentCompany] is non-empty exactly in the chat step, so the 'New
    Research' button is rendered exactly when the conversation is; in the
    research step [handleStartNew] cannot be triggered. *)
Theorem new_research_button_iff_chat (w : World) :
  reachable w →
  (App.currentCompany (app w) ≠ [] ↔ App.step (app w) = App.chat)
  ∧ (App.step (app w) = App.chat ↔ ∃ st, view w = ChatView st)
  ∧ (App.step (app w) = App.research → dispatch w StartNew = Some w).
Proof.
  intros Hr. pose proof (company_invariant w Hr) as [_ _ Hs].
  destruct (page_invariant w Hr) as [[Hv _ _ _ _ _ _ _] _].
  split; [done|]. split.
  - destruct (view w) as [f|st]; split; try congruence.
    + by intros [st Hst].
    + by exists st.
  - intros Hres. simpl. destruct (App.currentCompany (app w)) eqn:E; [done|].
    assert (App.step (app w) = App.chat) by by apply Hs. congruence.
Qed.

Lemma new_research_button_iff_chat_witness :
  App.currentCompany (app (world_after researched)) ≠ []
  ↔ App.step (app (world_after researched)) = App.chat.
Proof.
  refine (proj1 (new_research_button_iff_chat (world_after researched) _)).
  exists researched. vm_compute. reflexivity.
Defined.

(** A 2xx reply to a research call clears the interval of that submission
    and no other; a later tick of it changes nothing. *)
Theorem interval_cleared_on_success (w : World) (id owner : nat) (c : js_string)
    (result : Response → JsVal) (r : Response) (w' : World) :
  pending w !! id = Some (PendingResearch owner c result) →
  (200 ≤ status r < 300)%Z →
  dispatch w (HttpReply id r) = Some w' →
  intervals w' !! id = None
  ∧ (∀ id', id' ≠ id → intervals w' !! id' = intervals w !! id')
  ∧ dispatch w' (IntervalTick id) = Some w'.
Proof.
  intros Hp Hr Hd. simpl in Hd. unfold settle in Hd. rewrite Hp in Hd.
  unfold axios_settle in Hd.
  replace ((200 <=? status r)%Z && (status r <? 300)%Z) with true in Hd
    by (symmetry; apply andb_true_iff; lia).
  injection Hd as <-.
  match goal with |- context [with_form ?o ?g ?w1] =>
    destruct (with_form_frame o g w1) as (_ & _ & _ & Hi & _) end.
  simpl in Hi. split; [|split].
  - rewrite Hi. apply lookup_delete_eq.
  - intros id' Hne. rewrite Hi. by apply lookup_delete_ne.
  - simpl. rewrite Hi. by rewrite lookup_delete_eq.
Qed.

Lemma interval_cleared_on_success_witness :
  intervals (world_after (researching ++ [HttpReply 0 research_ok])) !! 0 = None.
Proof.
  refine (proj1 (interval_cleared_on_success (world_after researching) 0 0 acme
            (λ response, data response) research_ok
            (world_after (researching ++ [HttpReply 0 research_ok])) _ _ _)).
  - vm_compute. reflexivity.
  - simpl. lia.
  - vm_compute. reflexivity.
Defined.

Lemma interval_inv_step w ev w' : interval_inv w → dispatch w ev = Some w' → interval_inv w'.
Proof.
  intros Hinv Hd id' owner' c' result'. destruct ev; simpl in Hd.
  - destruct (view w); [destruct (ResearchForm.loading f)|]; injection Hd as <-; apply Hinv.
  - destruct (view w) as [f|]; [|injection Hd as <-; apply Hinv].
    destruct (ResearchForm.handleSubmit f) as [[st' call]|]; injection Hd as <-; [|apply Hinv].
    simpl. rewrite !lookup_insert. case_decide; [by eexists|apply Hinv].
  - destruct (intervals w !! id) as [[owner n]|] eqn:Ei; [|injection Hd as <-; apply Hinv].
    destruct (ResearchForm.interval_callback n) as [shown n']. injection Hd as <-.
    assert (Hgoal : pending w !! id' = Some (PendingResearch owner' c' result') →
              is_Some (<[id:=(owner, n')]> (intervals w) !! id')).
    { intros Hl. rewrite lookup_insert. case_decide; [by eexists|by eapply Hinv]. }
    destruct shown; [|exact Hgoal].
    match goal with |- context [with_form ?o ?g ?w1] =>
      destruct (with_form_frame o g w1) as (_ & _ & -> & -> & _) end. exact Hgoal.
  - destruct (timeouts w !! id) as [[c response]|]; [|injection Hd as <-; apply Hinv].
    destruct (get response (lit "viz_data"));
      [destruct (App.renders _); [|done]|]; injection Hd as <-; [|apply Hinv].
    unfold set_app. simpl. destruct (view w); apply Hinv.
  - unfold settle in Hd. destruct (pending w !! id) as [p|]; [|injection Hd as <-; apply Hinv].
    assert (Hdel : pending w !! id' = Some (PendingResearch owner' c' result') → id ≠ id' →
              is_Some (delete id (intervals w) !! id') ∧ is_Some (intervals w !! id')).
    { intros Hl Hne. rewrite lookup_delete_ne by done. split; by eapply Hinv. }
    destruct p as [owner c result|owner result].
    + destruct (axios_settle r); research_settled Hd;
        match goal with |- context [with_form ?o ?g ?w1] =>
          destruct (with_form_frame o g w1) as (_ & _ & -> & -> & _) end;
        simpl; intros Hl; apply lookup_delete_Some in Hl as [Hne Hl];
        by destruct (Hdel Hl Hne).
    + destruct (axios_settle r);
        apply with_chat_frame in Hd as (_ & _ & -> & -> & _);
        simpl; intros Hl; apply lookup_delete_Some in Hl as [Hne Hl];
        by destruct (Hdel Hl Hne).
  - unfold settle in Hd. destruct (pending w !! id) as [p|]; [|injection Hd as <-; apply Hinv].
    destruct p as [owner c result|owner result].
    + research_settled Hd.
      match goal with |- context [with_form ?o ?g ?w1] =>
        destruct (with_form_frame o g w1) as (_ & _ & -> & -> & _) end.
      simpl. intros Hl. apply lookup_delete_Some in Hl as [Hne Hl]. by eapply Hinv.
    + apply with_chat_frame in Hd as (_ & _ & -> & -> & _).
      simpl. intros Hl. apply lookup_delete_Some in Hl as [Hne Hl]. by eapply Hinv.
  - destruct (view w) as [|st]; [|destruct (ChatInterface.loading st)];
      injection Hd as <-; apply Hinv.
  - destruct (view w) as [|st]; [injection Hd as <-; apply Hinv|].
    case_decide; [|injection Hd as <-; apply Hinv].
    destruct (ChatInterface.suggestions !! i); injection Hd as <-; apply Hinv.
  - destruct (view w) as [|st]; [injection Hd as <-; apply Hinv|].
    destruct (ChatInterface.handleSubmit _ st) as [[st' call]|]; injection Hd as <-;
      [|apply Hinv].
    simpl. rewrite lookup_insert. case_decide; [done|apply Hinv].
  - destruct (App.currentCompany (app w)); injection Hd as <-; [apply Hinv|].
    unfold set_app. simpl. destruct (view w); apply Hinv.
Qed.

Lemma interval_invariant w : reachable w → interval_inv w.
Proof.
  apply (reachable_invariant interval_inv).
  - intros id owner c result. unfold init. simpl. by rewrite lookup_empty.
  - intros w0 ev w1 _. apply interval_inv_step.
Qed.

(** A failed research call clears no interval: the one of the failed
    submission stays registered. *)
Theorem interval_survives_failure (w : World) (id owner : nat) (c : js_string)
    (result : Response → JsVal) (ev : Event) (e : AxiosError) (w' : World) :
  reachable w →
  pending w !! id = Some (PendingResearch owner c result) →
  settles ev = Some (id, Rejected e) →
  dispatch w ev = Some w' →
  intervals w' = intervals w ∧ is_Some (intervals w' !! id).
Proof.
  intros Hr Hp He Hd.
  assert (Hset : settle id (Rejected e) w = Some w').
  { destruct ev; simpl in He; try done; injection He as <- He; by rewrite <- He. }
  unfold settle in Hset. rewrite Hp in Hset. research_settled Hset.
  match goal with |- context [with_form ?o ?g ?w1] =>
    destruct (with_form_frame o g w1) as (_ & _ & _ & -> & _) end.
  simpl. split; [done|]. by eapply (interval_invariant w Hr).
Qed.

Lemma interval_survives_failure_witness :
  is_Some (intervals (world_after (researching ++ [NetworkError 0])) !! 0).
Proof.
  refine (proj2 (interval_survives_failure (world_after researching) 0 0 acme
            (λ response, data response) (NetworkError 0) (mkAxiosError None)
            (world_after (researching ++ [NetworkError 0])) _ _ _ _)).
  - exists researching. vm_compute. reflexivity.
  - vm_compute. reflexivity.
  - reflexivity.
  - vm_compute. reflexivity.
Defined.

(** ** Sessions *)

(** A research followed by one question puts exactly two requests on the
    wire; both carry the company name as it was typed, white space
    included, and the prompt is the trimmed question.  This is so when
    React can render what [Visualization] shows of [viz_data]; when it
    cannot, the page is gone as the timeout fires and no question is sent. *)
Theorem session_sends_the_name_as_typed (c q : js_string) (r : Response) (viz_data : JsVal) :
  blank c = false → blank q = false →
  (200 ≤ status r < 300)%Z →
  get (data r) (lit "viz_data") = Some viz_data →
  ((truthy viz_data = true → Visualization.renders viz_data = true) →
   ∃ w,
     run [ChangeCompanyName c; SubmitResearch; HttpReply 0 r; TimeoutFire 0;
          ChangeInput q; SubmitChat] init = Some w
     ∧ log w
       = [Sent 1 (mkRequest POST (lit "/chat/")
                    (JObj [(lit "company_name", JStr c); (lit "prompt", JStr (trim q))]));
          Settle 0 (Fulfilled r);
          Sent 0 (mkRequest POST (lit "/research/") (JObj [(lit "company_name", JStr c)]))]
     ∧ chat_messages w
       = [ChatInterface.greeting c;
          ChatInterface.mkMessage ChatInterface.user (JStr (trim q))])
  ∧ (truthy viz_data = true → Visualization.renders viz_data = false →
     run [ChangeCompanyName c; SubmitResearch; HttpReply 0 r; TimeoutFire 0;
          ChangeInput q; SubmitChat] init = None).
Proof.
  intros Hc Hq Hr Hv.
  assert (Hc' : trim c ≠ []).
  { intros H. apply trim_blank_iff in H. congruence. }
  assert (Hq' : trim q ≠ []).
  { intros H. apply trim_blank_iff in H. congruence. }
  assert (Hshown : App.renders (App.mkState App.chat c viz_data) = true →
    ∃ w,
     run [ChangeCompanyName c; SubmitResearch; HttpReply 0 r; TimeoutFire 0;
          ChangeInput q; SubmitChat] init = Some w
     ∧ log w
       = [Sent 1 (mkRequest POST (lit "/chat/")
                    (JObj [(lit "company_name", JStr c); (lit "prompt", JStr (trim q))]));
          Settle 0 (Fulfilled r);
          Sent 0 (mkRequest POST (lit "/research/") (JObj [(lit "company_name", JStr c)]))]
     ∧ chat_messages w
       = [ChatInterface.greeting c;
          ChatInterface.mkMessage ChatInterface.user (JStr (trim q))]).
  { intros Hshow.
    change [ChangeCompanyName c; SubmitResearch; HttpReply 0 r; TimeoutFire 0;
            ChangeInput q; SubmitChat]
      with ((ChangeCompanyName c :: SubmitResearch :: replicate 0 (IntervalTick 0))
              ++ [HttpReply 0 r] ++ [TimeoutFire 0] ++ [ChangeInput q] ++ [SubmitChat]).
    rewrite !app_assoc, !run_snoc, run_ticking by done. simpl.
    unfold settle. simpl. rewrite lookup_singleton_eq.
    unfold axios_settle.
    replace ((200 <=? status r)%Z && (status r <? 300)%Z) with true
      by (symmetry; apply andb_true_iff; lia).
    simpl. rewrite lookup_insert_eq. rewrite Hv. simpl.
    change (App.handleResearchComplete c viz_data App.init)
      with (App.mkState App.chat c viz_data).
    rewrite Hshow. simpl.
    unfold set_app. simpl. unfold ChatInterface.handleSubmit. simpl.
    destruct (trim q) eqn:E; [done|]. simpl.
    eexists. split; [reflexivity|]. split; reflexivity. }
  split.
  - intros Hshow. apply Hshown. rewrite App_renders_chat.
    destruct (truthy viz_data); [by apply Hshow|done].
  - intros Et Hshow.
    change [ChangeCompanyName c; SubmitResearch; HttpReply 0 r; TimeoutFire 0;
            ChangeInput q; SubmitChat]
      with ((ChangeCompanyName c :: SubmitResearch :: replicate 0 (IntervalTick 0))
              ++ [HttpReply 0 r] ++ [TimeoutFire 0] ++ [ChangeInput q] ++ [SubmitChat]).
    rewrite !app_assoc, !run_snoc, run_ticking by done. simpl.
    unfold settle. simpl. rewrite lookup_singleton_eq.
    unfold axios_settle.
    replace ((200 <=? status r)%Z && (status r <? 300)%Z) with true
      by (symmetry; apply andb_true_iff; lia).
    simpl. rewrite lookup_insert_eq. rewrite Hv. simpl.
    change (App.handleResearchComplete c viz_data App.init)
      with (App.mkState App.chat c viz_data).
    rewrite App_renders_chat, Et, Hshow. done.
Qed.

Lemma session_sends_the_name_as_typed_witness :
  ∃ w,
    run [ChangeCompanyName (lit " Acme "); SubmitResearch; HttpReply 0 research_ok;
         TimeoutFire 0; ChangeInput (lit " Who runs it? "); SubmitChat] init = Some w
    ∧ log w
      = [Sent 1 (mkRequest POST (lit "/chat/")
                   (JObj [(lit "company_name", JStr (lit " Acme "));
                          (lit "prompt", JStr (lit "Who runs it?"))]));
         Settle 0 (Fulfilled research_ok);
         Sent 0 (mkRequest POST (lit "/research/")
                   (JObj [(lit "company_name", JStr (lit " Acme "))]))].
Proof.
  destruct (session_sends_the_name_as_typed (lit " Acme ") (lit " Who runs it? ")
              research_ok acme_viz) as [Hshown _].
  - reflexivity.
  - reflexivity.
  - simpl. lia.
  - reflexivity.
  - destruct Hshown as (w & Hrun & Hlog & _); [reflexivity|].
    exists w. split; [exact Hrun|exact Hlog].
Defined.

(** The page goes from the research form to the conversation only when a
    research timeout fires, and the conversation it mounts is a new
    instance holding only the greeting for the current company. *)
Theorem chat_view_mounts_fresh (w : World) (f : ResearchForm.state) (ev : Event)
    (w' : World) (st' : ChatInterface.state) :
  view w = ResearchView f → dispatch w ev = Some w' → view w' = ChatView st' →
  st' = ChatInterface.init (App.currentCompany (app w'))
  ∧ inst w' = S (inst w)
  ∧ ∃ id, ev = TimeoutFire id.
Proof.
  intros Hv Hd Hv'. destruct ev; simpl in Hd; rewrite ?Hv in Hd.
  - destruct (ResearchForm.loading f); injection Hd as Hd; subst w'; simpl in Hv'; congruence.
  - destruct (ResearchForm.handleSubmit f) as [[f' call]|]; injection Hd as Hd; subst w';
      simpl in Hv'; congruence.
  - destruct (intervals w !! id) as [[owner n]|]; [|injection Hd as Hd; subst w'; congruence].
    destruct (ResearchForm.interval_callback n) as [[s|] n']; injection Hd as Hd; subst w'.
    + match type of Hv' with context [with_form ?o ?g ?w1] =>
        destruct (with_form_frame o g w1) as (_ & _ & _ & _ & _ & [E|(f0 & _ & _ & E)]) end;
        simpl in E; congruence.
    + simpl in Hv'. congruence.
  - destruct (timeouts w !! id) as [[c response]|]; [|injection Hd as Hd; subst w'; congruence].
    destruct (get response (lit "viz_data"));
      [destruct (App.renders _); [|done]|]; injection Hd as Hd; subst w'.
    + unfold set_app in *. simpl in *. injection Hv' as <-. split; [done|]. split; [done|].
      by exists id.
    + simpl in Hv'. congruence.
  - unfold settle in Hd. destruct (pending w !! id) as [p|]; [|injection Hd as Hd; subst w'; congruence].
    destruct p as [owner c result|owner result].
    + destruct (axios_settle r); research_settled_in Hd w';
        match type of Hv' with context [with_form ?o ?g ?w1] =>
          destruct (with_form_frame o g w1) as (_ & _ & _ & _ & _ & [E|(f0 & _ & _ & E)]) end;
        simpl in E; congruence.
    + destruct (axios_settle r);
        apply with_chat_frame in Hd as (_ & _ & _ & _ & _ & [E|(st & st0 & E0 & E)]);
        simpl in *; congruence.
  - unfold settle in Hd. destruct (pending w !! id) as [p|]; [|injection Hd as Hd; subst w'; congruence].
    destruct p as [owner c result|owner result].
    + research_settled_in Hd w'.
      match type of Hv' with context [with_form ?o ?g ?w1] =>
        destruct (with_form_frame o g w1) as (_ & _ & _ & _ & _ & [E|(f0 & _ & _ & E)]) end;
        simpl in E; congruence.
    + apply with_chat_frame in Hd as (_ & _ & _ & _ & _ & [E|(st & st0 & E0 & E)]);
        simpl in *; congruence.
  - injection Hd as Hd; subst w'. congruence.
  - injection Hd as Hd; subst w'. congruence.
  - injection Hd as Hd; subst w'. congruence.
  - destruct (App.currentCompany (app w)); injection Hd as Hd; subst w'; [congruence|].
    unfold set_app in Hv'. simpl in Hv'. rewrite Hv in Hv'. done.
Qed.

Lemma chat_view_mounts_fresh_witness :
  chat_state (world_after researched) = ChatInterface.init acme.
Proof.
  refine (proj1 (chat_view_mounts_fresh
            (world_after (researching ++ [HttpReply 0 research_ok]))
            (ResearchForm.mkState acme false (JStr []) (lit "Research complete!"))
            (TimeoutFire 0) (world_after researched) (chat_state (world_after researched))
            _ _ _)).
  - vm_compute. reflexivity.
  - vm_compute. reflexivity.
  - vm_compute. reflexivity.
Defined.

(** The reply to a chat call of a conversation that is no longer mounted
    changes neither the view nor the application state, whatever the reply
    is (a [null] body included). *)
Theorem reply_to_unmounted_chat_is_ignored (w : World) (id owner : nat)
    (result : Response → JsVal) (ev : Event) (s : Settled) :
  pending w !! id = Some (PendingChat owner result) →
  owner ≠ inst w →
  settles ev = Some (id, s) →
  ∃ w', dispatch w ev = Some w'
        ∧ view w' = view w ∧ app w' = app w
        ∧ pending w' = delete id (pending w).
Proof.
  intros Hp Hne He.
  assert (Hd : dispatch w ev = settle id s w).
  { destruct ev; simpl in He; try done; by injection He as <- <-. }
  rewrite Hd. unfold settle. rewrite Hp. unfold with_chat.
  destruct s; simpl; destruct (view w) as [f|st] eqn:E;
    rewrite ?decide_False by congruence;
    eexists; (split; [reflexivity|]); simpl; done.
Qed.

Lemma reply_to_unmounted_chat_is_ignored_witness :
  ∃ w', dispatch (world_after abandoned) (HttpReply 1 (mkResponse 200 JNull)) = Some w'
        ∧ view w' = view (world_after abandoned).
Proof.
  destruct (reply_to_unmounted_chat_is_ignored (world_after abandoned) 1 1
              (λ response, data response) (HttpReply 1 (mkResponse 200 JNull))
              (Fulfilled (mkResponse 200 JNull))) as (w' & Hd & Hv & _).
  - vm_compute. reflexivity.
  - vm_compute. discriminate.
  - reflexivity.
  - exists w'. split; [exact Hd|exact Hv].
Defined.

(** A research timeout that fires while a conversation is open keeps the
    conversation as it is and switches the company, and the visualization
    data, to the newly researched one.  This is so when React can render
    what [Visualization] shows of the new data; when it cannot, the page is
    gone. *)
Theorem late_research_switches_company (w : World) (st : ChatInterface.state) (id : nat)
    (c : js_string) (response viz_data : JsVal) :
  view w = ChatView st →
  timeouts w !! id = Some (c, response) →
  get response (lit "viz_data") = Some viz_data →
  ((truthy viz_data = true → Visualization.renders viz_data = true) →
   ∃ w', dispatch w (TimeoutFire id) = Some w'
         ∧ view w' = ChatView st ∧ inst w' = inst w
         ∧ app w' = App.mkState App.chat c viz_data)
  ∧ (truthy viz_data = true → Visualization.renders viz_data = false →
     dispatch w (TimeoutFire id) = None).
Proof.
  intros Hv Ht Hg. simpl. rewrite Ht, Hg.
  change (App.handleResearchComplete c viz_data (app w))
    with (App.mkState App.chat c viz_data).
  rewrite App_renders_chat. split.
  - intros Hshow.
    assert (Hyes : (if truthy viz_data then Visualization.renders viz_data else true) = true).
    { destruct (truthy viz_data); [by apply Hshow|done]. }
    rewrite Hyes. eexists. split; [reflexivity|].
    unfold set_app. simpl. rewrite Hv. done.
  - intros Et Hshow. by rewrite Et, Hshow.
Qed.

Lemma late_research_switches_company_witness :
  ∃ w', dispatch (world_after overtaken) (TimeoutFire 1) = Some w'
        ∧ chat_messages w' = [ChatInterface.greeting acme]
        ∧ App.currentCompany (app w') = globex.
Proof.
  destruct (late_research_switches_company (world_after overtaken)
              (ChatInterface.init acme) 1 globex (data globex_ok)
              (JObj [(lit "summary", JStr (lit "Globex runs the world."))]))
    as [Hshown _].
  - vm_compute. reflexivity.
  - vm_compute. reflexivity.
  - reflexivity.
  - destruct Hshown as (w' & Hd & Hv & _ & Ha); [reflexivity|].
    exists w'. split; [exact Hd|]. split.
    + unfold chat_messages. rewrite Hv. reflexivity.
    + rewrite Ha. reflexivity.
Defined.

(** The suggested questions are offered only while the conversation is
    the greeting alone, and then no call of this conversation is in flight
    (a call left behind by an earlier conversation may be); clicking one
    and submitting sends that question unchanged as the prompt. *)
Theorem suggestion_is_sent_verbatim (w : World) (st : ChatInterface.state) (i : nat)
    (question : js_string) :
  reachable w → view w = ChatView st →
  length (ChatInterface.messages st) ≤ 1 →
  ChatInterface.suggestions !! i = Some question →
  (ChatInterface.loading st = false ∧ ∀ id, ¬ own_chat_call w id)
  ∧ (∃ c0, ChatInterface.messages st = [ChatInterface.greeting c0])
  ∧ ∃ w', run [ClickSuggestion i; SubmitChat] w = Some w'
          ∧ log w'
            = Sent (next_id w)
                (mkRequest POST (lit "/chat/")
                   (JObj [(lit "company_name", JStr (App.currentCompany (app w)));
                          (lit "prompt", JStr question)]))
              :: log w
          ∧ chat_messages w'
            = ChatInterface.messages st
              ++ [ChatInterface.mkMessage ChatInterface.user (JStr question)].
Proof.
  intros Hr Hv Hlen Hq. destruct (page_invariant w Hr) as [Hchat _].
  destruct (inv_greeting _ Hchat st Hv) as (c0 & rest & Hm).
  pose proof (inv_parity _ Hchat st Hv) as Hpar.
  rewrite Hm in Hlen, Hpar. simpl in Hlen. destruct rest; [|simpl in Hlen; lia].
  simpl in Hpar. assert (Hl : ChatInterface.loading st = false).
  { destruct (ChatInterface.loading st); done. }
  split; [split; [done|by apply (inv_idle _ Hchat st)]|]. split; [by exists c0|].
  assert (Ht : trim question = question ∧ question ≠ []).
  { do 4 (destruct i as [|i]; [injection Hq as <-; by vm_compute|]). done. }
  destruct Ht as [Ht Hne].
  simpl. rewrite Hv. rewrite decide_True by (rewrite Hm; simpl; lia). rewrite Hq. simpl.
  unfold ChatInterface.handleSubmit. simpl. rewrite Ht, Hl.
  destruct question as [|a q']; [done|]. eexists. split; [reflexivity|]. done.
Qed.

Lemma suggestion_is_sent_verbatim_witness :
  ∃ w', run [ClickSuggestion 2; SubmitChat] (world_after researched) = Some w'
        ∧ chat_messages w'
          = [ChatInterface.greeting acme;
             ChatInterface.mkMessage ChatInterface.user (JStr (lit "Market sentiment?"))].
Proof.
  destruct (suggestion_is_sent_verbatim (world_after researched) (ChatInterface.init acme)
              2 (lit "Market sentiment?")) as (_ & _ & w' & Hrun & _ & Hm).
  - exists researched. vm_compute. reflexivity.
  - vm_compute. reflexivity.
  - simpl. lia.
  - reflexivity.
  - exists w'. split; [exact Hrun|exact Hm].
Defined.

(** ** The visualization *)

(** Whenever [Visualization] renders, the pie chart and the per-source
    list show the same sources in the same order with the same counts; the
    chart names are the capitalized source names; summary and total are the
    fields of the data. *)
Theorem chart_and_stats_agree (toUpperCase : js_string → js_string)
    (data : JsVal) (company : js_string) (e : Visualization.element) :
  Visualization.Visualization toUpperCase data company = Some (Visualization.RenderElement e) →
  Visualization.el_chartData e
  = map (λ '(name, value), (Visualization.capitalize toUpperCase name, value))
        (Visualization.el_stats e)
  ∧ map snd (Visualization.el_chartData e) = map snd (Visualization.el_stats e)
  ∧ get data (lit "summary") = Some (Visualization.el_summary e)
  ∧ get data (lit "total_sources") = Some (Visualization.el_total_sources e).
Proof.
  unfold Visualization.Visualization. destruct (truthy data); simpl; [|done].
  destruct (get data (lit "summary")) as [s|]; [|done].
  destruct (get data (lit "sources_breakdown")) as [b|]; [|done].
  destruct (get data (lit "total_sources")) as [t|]; [|done]. simpl.
  destruct (Object_entries (js_or b (JObj []))) as [es|]; [|done]. simpl.
  intros [= <-]. simpl. repeat split; try done.
  induction es as [|[n v] es IH]; simpl; [done|]. by f_equal.
Qed.

Lemma chart_and_stats_agree_witness :
  map snd [(lit "web", JNum 3); (lit "news", JNum 2); (lit "code_host", JNum 1)]
  = map snd [(lit "web", JNum 3); (lit "news", JNum 2); (lit "code_host", JNum 1)].
Proof.
  refine (proj1 (proj2 (chart_and_stats_agree (λ s, s) acme_viz acme
            (Visualization.mkElement acme
               (JStr (lit "Acme makes anvils."))
               [(lit "web", JNum 3); (lit "news", JNum 2); (lit "code_host", JNum 1)]
               (JNum 6)
               [(lit "web", JNum 3); (lit "news", JNum 2); (lit "code_host", JNum 1)]) _))).
  vm_compute. reflexivity.
Defined.

(** [COLORS[index % COLORS.length]] is defined for every slice, whatever
    the number of sources, and the colours repeat every six slices. *)
Theorem every_slice_has_a_colour (chartData : list (js_string * JsVal)) :
  length (cell_fills chartData) = length chartData
  ∧ (∀ index, index < length chartData →
       ∃ colour, cell_fills chartData !! index = Some (Some colour) ∧ colour ∈ COLORS)
  ∧ (∀ index, index + 6 < length chartData →
       cell_fills chartData !! (index + 6) = cell_fills chartData !! index).
Proof.
  unfold cell_fills. split; [apply length_imap|]. split.
  - intros index Hlt. rewrite list_lookup_imap.
    destruct (lookup_lt_is_Some_2 chartData index Hlt) as [x ->].
    assert (Hm : index `mod` length COLORS < length COLORS).
    { apply Nat.mod_upper_bound. done. }
    destruct (lookup_lt_is_Some_2 COLORS _ Hm) as [colour Hc].
    exists colour. split; [|by eapply list_elem_of_lookup_2].
    change (Some (COLORS !! (index `mod` length COLORS)) = Some (Some colour)).
    by rewrite Hc.
  - intros index Hlt. rewrite !list_lookup_imap.
    destruct (lookup_lt_is_Some_2 chartData (index + 6)) as [x ->]; [lia|].
    destruct (lookup_lt_is_Some_2 chartData index) as [y ->]; [lia|].
    change (Some (COLORS !! ((index + 6) `mod` 6)) = Some (COLORS !! (index `mod` 6))).
    replace (index + 6) with (index + 1 * 6) by lia. by rewrite Nat.Div0.mod_add.
Qed.

Lemma every_slice_has_a_colour_witness :
  ∃ colour,
    cell_fills (replicate 8 (lit "web", JNum 1)) !! 7 = Some (Some colour) ∧ colour ∈ COLORS.
Proof.
  apply (proj1 (proj2 (every_slice_has_a_colour (replicate 8 (lit "web", JNum 1))))).
  simpl. lia.
Defined.

(** [App] renders [Visualization] only in the chat step and only with
    truthy data, so the component's [return null] is never taken from
    [App], and it is given the current company. *)
Theorem app_never_renders_visualization_null (toUpperCase : js_string → js_string)
    (a : App.state) (data : JsVal) (company : js_string) :
  App.visualization_props a = Some (data, company) →
  App.step a = App.chat ∧ data = App.vizData a ∧ company = App.currentCompany a
  ∧ ∃ e, Visualization.Visualization toUpperCase data company
         = Some (Visualization.RenderElement e)
         ∧ Visualization.el_company e = App.currentCompany a.
Proof.
  unfold App.visualization_props. destruct (App.step a); [done|].
  destruct (truthy (App.vizData a)) eqn:Et; [|done]. intros [= <- <-].
  repeat split; try done.
  unfold Visualization.Visualization. rewrite Et. simpl.
  destruct (get_truthy _ (lit "summary") Et) as [s ->].
  destruct (get_truthy _ (lit "sources_breakdown") Et) as [b ->].
  destruct (get_truthy _ (lit "total_sources") Et) as [t ->]. simpl.
  destruct (entries_js_or b) as [es ->]. simpl. by eexists.
Qed.

Lemma app_never_renders_visualization_null_witness :
  ∃ e, Visualization.Visualization (λ s, s) acme_viz acme
       = Some (Visualization.RenderElement e).
Proof.
  destruct (app_never_renders_visualization_null (λ s, s)
              (app (world_after researched)) acme_viz acme) as (_ & _ & _ & e & He & _).
  - vm_compute. reflexivity.
  - exists e. exact He.
Defined.
